(** * ContinuousViewManager (src/managers/continuous/index.js)

    A shallow embedding of the continuous windowed rendering manager of
    epub.js: the scroll normalisation and growth logic of [check], the
    visibility pass [update], the eviction policy [trim]/[erase], the
    pagination navigator [next]/[prev] and the constructor.

    Conventions of the embedding.
    - Pixel quantities (scroll offsets, lengths, extents) are exact
      rationals [Q]; [Math.floor] is [Qfloor].  Equations between computed
      numbers are stated with [==] where arithmetic is involved.
    - A JavaScript value that may be [undefined] is an [option]; a string
      setting is compared with [===] against a literal by [str_is].
    - The manager object [this] is the record [Manager]; a method is a
      function on it.  Views are mutable objects shared between the window
      and pending callbacks: they carry an identity [vid] and are mutated
      in the window by identity.
    - Promises: an asynchronous method is split in its synchronous part
      and the part that runs when the pending promises settle. *)

From Stdlib Require Import QArith ZArith List String Bool Arith Lia.
From Stdlib Require Import Qround Qabs Lqa.
Import ListNotations.

Local Open Scope string_scope.
Local Open Scope list_scope.
Local Open Scope Q_scope.

(** ** JavaScript values *)

Module JS.

(** Dynamically typed option values, as far as the constructor inspects
    them. *)
Inductive value : Type :=
| VUndefined
| VBoolean (b : bool)
| VNumber (q : Q)
| VString (s : string).

(** [v === 0]. *)
Definition strict_eq_zero (v : value) : bool :=
  match v with
  | VNumber q => Qeq_bool q 0
  | _ => false
  end.

(** [v != 'undefined'] (abstract inequality against the string literal):
    a number or a boolean is compared with ToNumber('undefined'), which is
    NaN and equal to nothing; [undefined] is loosely equal only to
    [null] and [undefined]; a string is compared as a string. *)
Definition loose_neq_undefined_literal (v : value) : bool :=
  match v with
  | VString s => negb (String.eqb s "undefined")
  | _ => true
  end.

(** Truthiness of an optional number: [undefined] and [0] are falsy. *)
Definition truthy (h : option Q) : bool :=
  match h with
  | Some q => negb (Qeq_bool q 0)
  | None => false
  end.

(** [h || d] for an optional number. *)
Definition or_else (h : option Q) (d : Q) : Q :=
  match h with
  | Some q => if Qeq_bool q 0 then d else q
  | None => d
  end.

(** [s === lit] for a possibly undefined string. *)
Definition str_is (s : option string) (lit : string) : bool :=
  match s with
  | Some x => String.eqb x lit
  | None => false
  end.

(** [Math.floor]. *)
Definition Math_floor (x : Q) : Q := inject_Z (Qfloor x).

(** [a >= b] and [a < b] on numbers. *)
Definition geb (a b : Q) : bool := Qle_bool b a.
Definition ltb (a b : Q) : bool := negb (Qle_bool b a).

(** Result of a call that may throw. *)
Inductive completion (A : Type) : Type :=
| Normal (a : A)
| TypeError.
Arguments Normal {A} a.
Arguments TypeError {A}.

End JS.
Import JS.

(** ** Data model *)

(** A section of the document.  [Section.prev()]/[Section.next()] live
    outside this file. *)
Record Section : Type := mkSection {
  index : nat;          (* position in the spine *)
  spine_length : nat    (* number of sections of the document *)
}.

(** Modelled from the spec: [Section.next()] and [Section.prev()] are absent
    from the sources; they give the logically adjacent section, or none at
    the ends of the document. *)
Definition section_next (s : Section) : option Section :=
  if (S (index s) <? spine_length s)%nat
  then Some (mkSection (S (index s)) (spine_length s))
  else None.

(** Modelled from the spec: [Section.prev()], as [section_next]. *)
Definition section_prev (s : Section) : option Section :=
  match index s with
  | O => None
  | S i => Some (mkSection i (spine_length s))
  end.

(** A view: one materialised section.  [width]/[height] are what
    [view.bounds()] measures. *)
Record View : Type := mkView {
  vid : nat;
  section : Section;
  displayed : bool;
  shown : bool;
  width : Q;
  height : Q
}.

Record Settings : Type := mkSettings {
  infinite : bool;
  axis : option string;
  flow : option string;
  offset : option Q;
  offsetDelta : option Q;
  snap : bool;
  afterScrolledTimeout : option Q;
  fullsize : bool;
  direction : option string;
  rtlScrollType : option string;
  gap : value
}.

(** The options object handed to the constructor; [o_settings] may be
    missing. *)
Record Options : Type := mkOptions {
  o_settings : option Settings
}.

Record Layout : Type := mkLayout {
  l_name : option string;   (* layout.props.name *)
  l_spread : bool;          (* layout.props.spread *)
  l_delta : Q;              (* layout.props.delta *)
  l_height : Q              (* layout.height *)
}.

(** Tasks handed to the queue [this.q]. *)
Inductive Task : Type :=
| TCheck
| TUpdate
| TTrim
| TDestroy (v : nat).

(** The position of the two possible scroll owners and the measured
    extents of the container. *)
Record Dom : Type := mkDom {
  container_scrollLeft : Q;
  container_scrollTop : Q;
  container_scrollWidth : Q;
  container_scrollHeight : Q;
  window_scrollX : Q;
  window_scrollY : Q
}.

Record Manager : Type := mkManager {
  name : string;
  settings : Settings;
  views : list View;
  next_vid : nat;                   (* identity of the next created view *)
  q : list Task;
  scrollTop : Q;
  scrollLeft : Q;
  bounds_width : Q;                 (* this._bounds.width *)
  bounds_height : Q;                (* this._bounds.height *)
  writingMode : option string;
  layout : Layout;
  isPaginated : bool;
  dom : Dom;
  timers : list (nat * nat);        (* pending trim timers: handle, delay *)
  next_timer : nat;
  trimTimeout : option nat          (* this.trimTimeout *)
}.

Definition set_views (vs : list View) (m : Manager) : Manager :=
  mkManager (name m) (settings m) vs (next_vid m) (q m) (scrollTop m)
    (scrollLeft m) (bounds_width m) (bounds_height m) (writingMode m)
    (layout m) (isPaginated m) (dom m) (timers m) (next_timer m)
    (trimTimeout m).

Definition set_next_vid (n : nat) (m : Manager) : Manager :=
  mkManager (name m) (settings m) (views m) n (q m) (scrollTop m)
    (scrollLeft m) (bounds_width m) (bounds_height m) (writingMode m)
    (layout m) (isPaginated m) (dom m) (timers m) (next_timer m)
    (trimTimeout m).

Definition set_q (t : list Task) (m : Manager) : Manager :=
  mkManager (name m) (settings m) (views m) (next_vid m) t (scrollTop m)
    (scrollLeft m) (bounds_width m) (bounds_height m) (writingMode m)
    (layout m) (isPaginated m) (dom m) (timers m) (next_timer m)
    (trimTimeout m).

Definition set_dom (d : Dom) (m : Manager) : Manager :=
  mkManager (name m) (settings m) (views m) (next_vid m) (q m) (scrollTop m)
    (scrollLeft m) (bounds_width m) (bounds_height m) (writingMode m)
    (layout m) (isPaginated m) d (timers m) (next_timer m)
    (trimTimeout m).

Definition set_timers (ts : list (nat * nat)) (nt : nat) (h : option nat)
    (m : Manager) : Manager :=
  mkManager (name m) (settings m) (views m) (next_vid m) (q m) (scrollTop m)
    (scrollLeft m) (bounds_width m) (bounds_height m) (writingMode m)
    (layout m) (isPaginated m) (dom m) ts nt h.

(** ** The constructor *)

Definition set_gap (g : value) (s : Settings) : Settings :=
  mkSettings (infinite s) (axis s) (flow s) (offset s) (offsetDelta s)
    (snap s) (afterScrolledTimeout s) (fullsize s) (direction s)
    (rtlScrollType s) g.

(** The empty object [{}]. *)
Definition empty_settings : Settings :=
  mkSettings false None None None None false None false None None VUndefined.

(** The literal of defaults in the constructor (the properties it sets to
    [undefined] are the [None]s). *)
Definition continuous_defaults : Settings :=
  mkSettings true None (Some "scrolled") (Some 500) (Some 250) false
    (Some 10) false None None VUndefined.

Section Constructor.

(** [extend] of utils/core is not in the sources: the constructor is
    parametric in it. *)
Variable extend : Settings -> Settings -> Settings.

(** [base] is [this] as the base class constructor [super(options)] left
    it; [base_settings] is its [this.settings], which may be missing. *)
Definition constructor (base : Manager) (base_settings : option Settings)
    (options : Options) : completion Manager :=
  let s0 := extend (match base_settings with
                    | Some s => s
                    | None => empty_settings
                    end) continuous_defaults in
  let s1 := extend s0 (match o_settings options with
                       | Some s => s
                       | None => empty_settings
                       end) in
  (* options.settings.gap throws when options.settings is undefined *)
  match o_settings options with
  | None => TypeError
  | Some os =>
      let s2 :=
        if loose_neq_undefined_literal (gap os) && strict_eq_zero (gap os)
        then set_gap (gap os) s1
        else s1 in
      Normal
        (mkManager "continuous" s2 (views base) (next_vid base) (q base)
           0 0 (bounds_width base) (bounds_height base)
           (writingMode base) (layout base) (isPaginated base) (dom base)
           (timers base) (next_timer base) (trimTimeout base))
  end.

End Constructor.

(** ** check: lookahead margin and scroll normalisation *)

Definition horizontal (m : Manager) : bool :=
  str_is (axis (settings m)) "horizontal".

(** Lines 240-249: the lookahead margin [delta]. *)
Definition check_delta (m : Manager) (_offsetLeft _offsetTop : option Q) : Q :=
  let delta := or_else (offset (settings m)) 0 in
  let delta :=
    if truthy _offsetLeft && horizontal m
    then match _offsetLeft with Some x => x | None => delta end
    else delta in
  let delta :=
    if truthy _offsetTop && negb (horizontal m)
    then match _offsetTop with Some x => x | None => delta end
    else delta in
  delta.

(** Line 253: the raw tracked offset along the scroll axis. *)
Definition raw_offset (m : Manager) : Q :=
  if horizontal m then scrollLeft m else scrollTop m.

(** Lines 254-255. *)
Definition visibleLength (m : Manager) : Q :=
  if horizontal m then Math_floor (bounds_width m) else bounds_height m.

Definition contentLength (m : Manager) : Q :=
  if horizontal m then container_scrollWidth (dom m)
  else container_scrollHeight (dom m).

(** Line 256: [true] when the computed writing mode is 'horizontal'. *)
Definition writingMode_horizontal (m : Manager) : bool :=
  match writingMode m with
  | Some w =>
      (* this.writingMode && this.writingMode.indexOf('vertical') === 0 *)
      negb (negb (String.eqb w "") && String.prefix "vertical" w)
  | None => true
  end.

Definition rtl (m : Manager) : bool :=
  str_is (direction (settings m)) "rtl".

(** Lines 253-275: the normalised offset. *)
Definition check_offset (m : Manager) : Q :=
  let offset := raw_offset m in
  let rtlScrollType := rtlScrollType (settings m) in
  if negb (fullsize (settings m)) then
    let offset :=
      if rtl m && str_is rtlScrollType "default" && writingMode_horizontal m
      then contentLength m - visibleLength m - offset
      else offset in
    let offset :=
      if rtl m && str_is rtlScrollType "negative" && writingMode_horizontal m
      then offset * (-1)
      else offset in
    offset
  else
    if (horizontal m && rtl m && str_is rtlScrollType "negative")
       || (negb (horizontal m) && rtl m && str_is rtlScrollType "default")
    then offset * (-1)
    else offset.

(** ** The view window *)

(** Modelled from the spec: the [Views] collection (managers/helpers/views)
    is absent from the sources.  It is the ordered sequence of views of the
    window, with append, prepend, remove and the positional queries first,
    last, slice, indexOf; [displayed()] lists the views that are displayed.
    Views are compared by identity. *)
Module Views.

(** Modelled from the spec: [first()], the view at the head of the window,
    if any. *)
Definition first (ws : list View) : option View := hd_error ws.

(** Modelled from the spec: [last()], the view at the end of the window,
    if any. *)
Definition last (ws : list View) : option View :=
  match ws with
  | [] => None
  | v :: _ => Some (List.last ws v)
  end.

(** Modelled from the spec: [append(view)] and [prepend(view)]. *)
Definition append (v : View) (ws : list View) : list View := ws ++ [v].

Definition prepend (v : View) (ws : list View) : list View := v :: ws.

(** Modelled from the spec: [displayed()], the displayed views in window
    order. *)
Definition displayed (ws : list View) : list View :=
  filter (fun v => displayed v) ws.

(** Modelled from the spec: [indexOf(view)], the position of the object,
    [-1] when it is not in the array (in particular for [undefined]). *)
Fixpoint index_from (i : Z) (id : nat) (ws : list View) : Z :=
  match ws with
  | [] => (-1)%Z
  | v :: rest => if (vid v =? id)%nat then i else index_from (i + 1)%Z id rest
  end.

Definition indexOf (v : option View) (ws : list View) : Z :=
  match v with
  | Some x => index_from 0%Z (vid x) ws
  | None => (-1)%Z
  end.

(** Modelled from the spec: [remove(view)] takes the object out of the
    array. *)
Fixpoint remove (id : nat) (ws : list View) : list View :=
  match ws with
  | [] => []
  | v :: rest => if (vid v =? id)%nat then rest else v :: remove id rest
  end.

End Views.

(** [Array.prototype.slice(begin, end)] with its relative indices. *)
Definition relative_index (len i : Z) : Z :=
  if (i <? 0)%Z then Z.max (len + i) 0 else Z.min i len.

Definition slice {A : Type} (b : Z) (e : option Z) (l : list A) : list A :=
  let len := Z.of_nat (List.length l) in
  let k := relative_index len b in
  let final := match e with
               | Some e' => relative_index len e'
               | None => len
               end in
  firstn (Z.to_nat (final - k)) (skipn (Z.to_nat k) l).

(** [a[i]] for a number [i]. *)
Definition item {A : Type} (l : list A) (i : Z) : option A :=
  if (i <? 0)%Z then None else nth_error l (Z.to_nat i).

(** [for (let i = lo; i < hi; i++) body(i)]. *)
Definition for_range {S : Type} (lo hi : Z) (body : Z -> S -> S) (s : S) : S :=
  fold_left (fun acc k => body (lo + Z.of_nat k)%Z acc)
    (seq 0 (Z.to_nat (hi - lo))) s.

(** In-place mutation of the view object with identity [id]. *)
Definition mutate (id : nat) (f : View -> View) (ws : list View) : list View :=
  map (fun v => if (vid v =? id)%nat then f v else v) ws.

Definition set_shown (b : bool) (v : View) : View :=
  mkView (vid v) (section v) (displayed v) b (width v) (height v).

Definition set_displayed (b : bool) (v : View) : View :=
  mkView (vid v) (section v) b (shown v) (width v) (height v).

(** Modelled from the spec: the [View] class is absent from the sources.
    [show()] marks the view shown, [hide()] marks it hidden; [display()]
    returns a promise of the view that resolves once its content is in the
    render tree (the view is then displayed) and rejects on render
    failure. *)
Definition view_show (v : View) (m : Manager) : Manager :=
  set_views (mutate (vid v) (set_shown true) (views m)) m.

(** Modelled from the spec: [View.hide()], see [view_show]. *)
Definition view_hide (v : View) (m : Manager) : Manager :=
  set_views (mutate (vid v) (set_shown false) (views m)) m.

(** Modelled from the spec: the effect of a [View.display()] that resolved,
    see [view_show]. *)
Definition view_displayed (v : View) (m : Manager) : Manager :=
  set_views (mutate (vid v) (set_displayed true) (views m)) m.

(** Modelled from the spec: the task queue is absent from the sources;
    [enqueue] submits a task, tasks run in submission order. *)
Definition enqueue (t : Task) (m : Manager) : Manager :=
  set_q (q m ++ [t]) m.

(** Modelled from the spec: [scrollTo] and [scrollBy] of the base manager
    are absent from the sources.  They set, respectively move by a delta,
    the position of the scroll owner: the bounded container, or the whole
    viewport when [fullsize]. *)
Definition scrollTo (x y : Q) (m : Manager) : Manager :=
  let d := dom m in
  if negb (fullsize (settings m)) then
    set_dom (mkDom x y (container_scrollWidth d) (container_scrollHeight d)
               (window_scrollX d) (window_scrollY d)) m
  else
    set_dom (mkDom (container_scrollLeft d) (container_scrollTop d)
               (container_scrollWidth d) (container_scrollHeight d) x y) m.

(** Modelled from the spec: [scrollBy], see [scrollTo]. *)
Definition scrollBy (x y : Q) (m : Manager) : Manager :=
  let d := dom m in
  if negb (fullsize (settings m)) then
    scrollTo (container_scrollLeft d + x) (container_scrollTop d + y) m
  else
    scrollTo (window_scrollX d + x) (window_scrollY d + y) m.

(** The position of the scroll owner. *)
Definition owner_left (m : Manager) : Q :=
  if negb (fullsize (settings m)) then container_scrollLeft (dom m)
  else window_scrollX (dom m).

Definition owner_top (m : Manager) : Q :=
  if negb (fullsize (settings m)) then container_scrollTop (dom m)
  else window_scrollY (dom m).

(** ** Eviction: erase and trim *)

(** [erase(view, above)]; [above] is the truthiness of the second
    argument. *)
Definition erase (view : View) (above : bool) (m : Manager) : Manager :=
  let prevTop :=
    if negb (fullsize (settings m)) then container_scrollTop (dom m)
    else window_scrollY (dom m) in
  let prevLeft :=
    if negb (fullsize (settings m)) then container_scrollLeft (dom m)
    else window_scrollX (dom m) in
  let bounds_w := width view in
  let bounds_h := height view in
  let m := set_views (Views.remove (vid view) (views m)) m in
  if above then
    if str_is (axis (settings m)) "vertical" then
      scrollTo 0 (prevTop - bounds_h) m
    else
      if str_is (direction (settings m)) "rtl" then
        if negb (fullsize (settings m)) then
          scrollTo prevLeft 0 m
        else
          scrollTo (prevLeft + Math_floor bounds_w) 0 m
      else
        scrollTo (prevLeft - Math_floor bounds_w) 0 m
  else m.

(** [trim()].  The arrays [above] and [below] are copies taken before the
    loops; an index inside the loop bounds always holds a view. *)
Definition trim (m : Manager) : Manager :=
  let displayed := Views.displayed (views m) in
  let first := item displayed 0 in
  let last := item displayed (Z.of_nat (List.length displayed) - 1) in
  let firstIndex := Views.indexOf first (views m) in
  let lastIndex := Views.indexOf last (views m) in
  let above := slice 0 (Some firstIndex) (views m) in
  let below := slice (lastIndex + 1) None (views m) in
  let m :=
    for_range 0 (Z.of_nat (List.length above) - 1)
      (fun i acc => match item above i with
                    | Some v => erase v true acc
                    | None => acc
                    end) m in
  let m :=
    for_range 1 (Z.of_nat (List.length below))
      (fun j acc => match item below j with
                    | Some v => erase v false acc
                    | None => acc
                    end) m in
  m.

(** ** Pagination navigator *)

Definition step_delta (m : Manager) : Q :=
  if str_is (l_name (layout m)) "pre-paginated" && l_spread (layout m)
  then l_delta (layout m) * 2
  else l_delta (layout m).

Definition next (m : Manager) : Manager :=
  let delta := step_delta m in
  if (List.length (views m) =? 0)%nat then m
  else
    let m :=
      if isPaginated m && horizontal m
      then scrollBy delta 0 m
      else scrollBy 0 (l_height (layout m)) m in
    enqueue TCheck m.

Definition prev (m : Manager) : Manager :=
  let delta := step_delta m in
  if (List.length (views m) =? 0)%nat then m
  else
    let m :=
      if isPaginated m && horizontal m
      then scrollBy (- delta) 0 m
      else scrollBy 0 (- l_height (layout m)) m in
    enqueue TCheck m.

(** ** Timers of the eviction scan *)

(** [clearTimeout(handle)]: the pending timer with that handle, if any, is
    cancelled. *)
Definition clearTimeout (h : option nat) (m : Manager) : Manager :=
  match h with
  | Some k =>
      set_timers (filter (fun t => negb (fst t =? k)%nat) (timers m))
        (next_timer m) (trimTimeout m) m
  | None => m
  end.

(** [this.trimTimeout = setTimeout(() => this.q.enqueue(this.trim), delay)]. *)
Definition setTimeout_trim (delay : nat) (m : Manager) : Manager :=
  set_timers (timers m ++ [(next_timer m, delay)]) (S (next_timer m))
    (Some (next_timer m)) m.


(** ** Values a promise of [check]/[update] resolves with *)

Inductive Resolved : Type :=
| RBool (b : bool)
| RUndefined
| RArray (n : nat)     (* an array of [n] undefined entries *)
| RError.              (* the rejection reason of a display *)

(** Truthiness in [if (result)]: an array and an error object are truthy. *)
Definition truthy_result (r : Resolved) : bool :=
  match r with
  | RBool b => b
  | RUndefined => false
  | RArray _ => true
  | RError => true
  end.

(** Modelled from the spec: [createView] of the base manager is absent from
    the sources; it gives a new view of the section, not yet displayed. *)
Definition createView (s : Section) (m : Manager) : Manager * View :=
  (set_next_vid (S (next_vid m)) m, mkView (next_vid m) s false false 0 0).

(** [append(section)] and [prepend(section)]; the event handlers they
    register run later and outside these calls. *)
Definition append (s : Section) (m : Manager) : Manager * View :=
  let '(m, view) := createView s m in
  (set_views (Views.append view (views m)) m, view).

Definition prepend (s : Section) (m : Manager) : Manager * View :=
  let '(m, view) := createView s m in
  (set_views (Views.prepend view (views m)) m, view).

(** The closures [append] and [prepend] of [check] (lines 277-294). *)
Definition check_append (st : Manager * list View) : Manager * list View :=
  let '(m, newViews) := st in
  match Views.last (views m) with
  | Some last =>
      match section_next (section last) with
      | Some next =>
          let '(m, view) := append next m in (m, newViews ++ [view])
      | None => st
      end
  | None => st
  end.

Definition check_prepend (st : Manager * list View) : Manager * list View :=
  let '(m, newViews) := st in
  match Views.first (views m) with
  | Some first =>
      match section_prev (section first) with
      | Some prev =>
          let '(m, view) := prepend prev m in (m, newViews ++ [view])
      | None => st
      end
  | None => st
  end.

(** Lines 296-305: the growth decisions, from the measures taken before any
    view is added. *)
Definition check_grow (m : Manager) (delta : Q) : Manager * list View :=
  let offset := check_offset m in
  let visibleLength := visibleLength m in
  let contentLength := contentLength m in
  let end_ := offset + visibleLength + delta in
  let start := offset - delta in
  let st := (m, []) in
  let st := if geb end_ contentLength then check_append st else st in
  let st := if ltb start 0 then check_prepend st else st in
  st.

(** State of the loop of [update]: the manager, the pending display
    promises in the order they were pushed, and the function-scoped variable
    [view], which the rejection handler [err => { view.hide(); }] closes
    over. *)
Record Pass : Type := mkPass {
  p_m : Manager;
  p_promises : list View;
  p_view : option View
}.

Section Environment.

(** [isVisible(view, offsetPrev, offsetNext, container)] of the base
    manager is absent from the sources: the intersection test is a
    parameter. *)
Variable isVisible : View -> Q -> Q -> bool.

(** Whether [view.display(request)] resolves (or rejects). *)
Variable display_ok : View -> bool.

(** What happens outside the manager while promises are pending at step
    [t]: rendering changes the measures, scroll events update the tracked
    offsets, earlier queued tasks run. *)
Variable world : nat -> Manager -> Manager.

(** *** update *)

(** One turn of the loop of [update] (lines 193-220).  The loop body
    changes no [displayed] flag; the array [visible] it fills is local and
    never read. *)
Definition update_body (offset : Q) (st : Pass) (view : View) : Pass :=
  let m := p_m st in
  if isVisible view offset offset then
    if negb (displayed view) then
      mkPass m (p_promises st ++ [view]) (Some view)
    else
      mkPass (view_show view m) (p_promises st) (Some view)
  else
    let m := enqueue (TDestroy (vid view)) m in
    let m := clearTimeout (trimTimeout m) m in
    let m := setTimeout_trim 250 m in
    mkPass m (p_promises st) (Some view).

(** The synchronous part of [update(_offset)]. *)
Definition update_sync (_offset : option Q) (m : Manager) : Pass :=
  let offset :=
    match _offset with
    | Some o => o
    | None => or_else (offset (settings m)) 0
    end in
  fold_left (update_body offset) (views m) (mkPass m [] None).

(** Settlement of one display promise of [update]: the fulfilment handler
    shows the view the promise resolved with, the rejection handler hides
    the view held by the closure variable. *)
Definition settle_display (closure_view : option View) (m : Manager)
    (v : View) : Manager :=
  if display_ok v then view_show v (view_displayed v m)
  else match closure_view with
       | Some w => view_hide w m
       | None => m
       end.

(** What the promise returned by [update] resolves with, and the manager
    once it has. *)
Definition update_settle (st : Pass) : Manager * Resolved :=
  match p_promises st with
  | [] => (p_m st, RUndefined)
  | _ :: _ =>
      (fold_left (settle_display (p_view st)) (p_promises st) (p_m st),
       RArray (List.length (p_promises st)))
  end.

Definition update (_offset : option Q) (m : Manager) : Manager * Resolved :=
  update_settle (update_sync _offset m).

(** *** check *)

(** Settlement of the displays started by [check] for the new views. *)
Definition display_new (newViews : list View) (m : Manager) : Manager :=
  fold_left (fun acc v => if display_ok v then view_displayed v acc else acc)
    newViews m.

(** [check(_offsetLeft, _offsetTop)] with the promise chain run to its end.
    [fuel] bounds the nesting of the recursive calls; the result is the
    manager, the value the returned promise resolves with and, for each
    call of [check] made, in order, the number of views it added. *)
Fixpoint check (fuel : nat) (t : nat) (_offsetLeft _offsetTop : option Q)
    (m : Manager) {struct fuel} : option (Manager * Resolved * list nat) :=
  match fuel with
  | O => None
  | S fuel' =>
      let delta := check_delta m _offsetLeft _offsetTop in
      let '(m, newViews) := check_grow m delta in
      match newViews with
      | [] => Some (enqueue TUpdate m, RBool false, [0%nat])
      | _ :: _ =>
          let m := display_new newViews m in
          if forallb display_ok newViews then
            match check fuel' (S t) None None (world t m) with
            | None => None
            | Some (m, _, calls) =>
                let '(m, r) := update (Some delta) m in
                Some (m, r, List.length newViews :: calls)
            end
          else Some (m, RError, [List.length newViews])
      end
  end.

(** *** fill *)


End Environment.

(** ** Measures used in the statements *)

(** Sections of the document not yet in the window: those before the first
    view and those after the last one. *)
Definition remaining (m : Manager) : nat :=
  match Views.first (views m), Views.last (views m) with
  | Some f, Some l =>
      index (section f) + (spine_length (section l) - 1 - index (section l))
  | _, _ => 0
  end.


(** The world does not change which sections are in the window (no
    eviction, no growth of its own). *)
Definition keeps_window (world : nat -> Manager -> Manager) : Prop :=
  forall t m, map section (views (world t m)) = map section (views m).

(** The views before the first displayed view, and after the last one. *)
Fixpoint leading (ws : list View) : list View :=
  match ws with
  | [] => []
  | v :: rest => if displayed v then [] else v :: leading rest
  end.

Definition trailing (ws : list View) : list View :=
  rev (leading (rev ws)).

(** From the first displayed view to the last one. *)
Definition shown_range (ws : list View) : list View :=
  firstn (List.length ws - List.length (leading ws) - List.length (trailing ws))
    (skipn (List.length (leading ws)) ws).

(** ** Sample managers used by the examples *)

Definition sample_layout : Layout := mkLayout (Some "reflowable") false 600 800.

Definition sample_dom : Dom := mkDom 0 0 1000 1000 0 0.

Definition sample_manager (s : Settings) (ws : list View) : Manager :=
  mkManager "continuous" s ws (List.length ws) [] 0 0 600 800 None
    sample_layout false sample_dom [] 0 None.

Definition horizontal_settings : Settings :=
  mkSettings true (Some "horizontal") (Some "scrolled") (Some 500) (Some 250)
    false (Some 10) false None None VUndefined.

Definition settings_of (ax : option string) (full : bool)
    (dir rtlType : option string) : Settings :=
  mkSettings true ax (Some "scrolled") (Some 500) (Some 250) false (Some 10)
    full dir rtlType VUndefined.

(** A manager scrolled at [left]/[top], both as tracked by the scroll
    listener and on the two scroll owners. *)
Definition scrolled_manager (s : Settings) (ws : list View) (left top : Q)
    : Manager :=
  mkManager "continuous" s ws (List.length ws) [] top left 600 800 None
    sample_layout false (mkDom left top 3000 3000 left top) [] 0 None.

Definition sample_view (id : nat) (i : nat) (d : bool) : View :=
  mkView id (mkSection i 10) d d 100 1000.

(** ** The rule table of the normalisation in the words of the specification *)

(** "non-fullsize + default + horizontal": subtract from the content. *)
Definition spec_rule_subtract (m : Manager) : bool :=
  negb (fullsize (settings m))
  && str_is (rtlScrollType (settings m)) "default"
  && writingMode_horizontal m.

(** "non-fullsize + negative + horizontal": sign flip. *)
Definition spec_rule_flip_container (m : Manager) : bool :=
  negb (fullsize (settings m))
  && str_is (rtlScrollType (settings m)) "negative"
  && writingMode_horizontal m.

(** "fullsize + negative + (any axis matching rtl)": sign flip. *)
Definition spec_rule_flip_viewport (m : Manager) : bool :=
  fullsize (settings m)
  && str_is (rtlScrollType (settings m)) "negative"
  && rtl m.

(** The combinations in which the code changes the raw offset. *)
Definition normalisation_applies (m : Manager) : bool :=
  let t := rtlScrollType (settings m) in
  rtl m &&
  (if negb (fullsize (settings m))
   then writingMode_horizontal m && (str_is t "default" || str_is t "negative")
   else (horizontal m && str_is t "negative")
        || (negb (horizontal m) && str_is t "default")).

(** Managers for the rows of the rule table. *)
Definition container_default : Manager :=
  scrolled_manager
    (settings_of (Some "horizontal") false (Some "rtl") (Some "default"))
    [] 200 0.

Definition container_negative : Manager :=
  scrolled_manager
    (settings_of (Some "horizontal") false (Some "rtl") (Some "negative"))
    [] (-200) 0.

Definition viewport_negative : Manager :=
  scrolled_manager
    (settings_of (Some "horizontal") true (Some "rtl") (Some "negative"))
    [] (-200) 0.

Definition viewport_default_vertical : Manager :=
  scrolled_manager
    (settings_of (Some "vertical") true (Some "rtl") (Some "default"))
    [] 0 5.

Definition viewport_negative_vertical : Manager :=
  scrolled_manager
    (settings_of (Some "vertical") true (Some "rtl") (Some "negative"))
    [] 0 5.

(** A window of one hidden view above a displayed one, scrolled at 300 in a
    bounded container, horizontal axis, direction rtl. *)
Definition rtl_container_window : Manager :=
  scrolled_manager
    (settings_of (Some "horizontal") false (Some "rtl") (Some "default"))
    [sample_view 0 3 false; sample_view 1 4 true] 300 0.

(** The last element of a list as a list of at most one element, and the
    first one. *)
Definition keep_last {A : Type} (l : list A) : list A :=
  skipn (List.length l - 1) l.

Definition keep_first {A : Type} (l : list A) : list A := firstn 1 l.

Definition hidden (v : View) : Prop := displayed v = false.

(** A paginated manager with a pre-paginated spread layout. *)
Definition spread_window : Manager :=
  mkManager "continuous"
    (settings_of (Some "horizontal") false None None)
    [sample_view 0 3 true] 1 [] 0 1200 600 800 None
    (mkLayout (Some "pre-paginated") true 600 800) true
    (mkDom 1200 0 6000 800 0 0) [] 0 None.

(** A window with three hidden views above the displayed range, a hidden
    view inside it and two hidden views below. *)
Definition long_window : Manager :=
  scrolled_manager
    (settings_of (Some "vertical") false None None)
    [sample_view 0 0 false; sample_view 1 1 false; sample_view 2 2 false;
     sample_view 3 3 true; sample_view 4 4 false; sample_view 5 5 true;
     sample_view 6 6 false; sample_view 7 7 false] 0 3500.



(** A window whose only view is displayed and shown. *)
Definition single_window : Manager :=
  scrolled_manager (settings_of (Some "vertical") false None None)
    [sample_view 0 3 true] 0 5000.

(** A window whose first view was shown, has lost its content and is to be
    rendered again, followed by a displayed and shown view. *)
Definition reject_window : Manager :=
  scrolled_manager (settings_of (Some "vertical") false None None)
    [mkView 0 (mkSection 3 10) false true 100 1000; sample_view 1 4 true]
    0 3000.

(** A window with a view to render, a displayed view in range and a
    displayed view out of range. *)
Definition mixed_window : Manager :=
  scrolled_manager (settings_of (Some "vertical") false None None)
    [sample_view 0 3 false; sample_view 1 4 true; sample_view 2 5 true]
    0 3000.

Definition first_two (v : View) (_ _ : Q) : bool := (vid v <? 2)%nat.

(** [remaining] as a function of the sections of the window. *)
Definition remaining_of (ss : list Section) : nat :=
  match ss with
  | [] => 0
  | s :: _ =>
      index s
      + (spine_length (List.last ss s) - 1 - index (List.last ss s))
  end.

(** A document of two sections, the first one in the window, displayed and
    shown; the content (1000) ends within the margin below the visible range
    (800 high, margin 500). *)
Definition short_document : Manager :=
  mkManager "continuous" (settings_of (Some "vertical") false None None)
    [mkView 0 (mkSection 0 2) true true 600 1000] 1 [] 0 0 600 800 None
    sample_layout false (mkDom 0 0 600 1000 0 0) [] 0 None.

(** A document of ten sections with the sections 3 to 5 in the window. *)
Definition ten_sections : Manager :=
  mkManager "continuous" (settings_of (Some "vertical") false None None)
    [sample_view 0 3 true; sample_view 1 4 true; sample_view 2 5 true]
    3 [] 0 0 600 800 None
    sample_layout false (mkDom 0 0 600 1000 0 0) [] 0 None.

(** A world in which nothing happens between two steps. *)
Definition still (t : nat) (m : Manager) : Manager := m.

Definition always (v : View) : bool := true.

(** Every display rejects. *)
Definition never (v : View) : bool := false.

Definition in_range (v : View) (_ _ : Q) : bool := true.

(** Windows of a hidden view above a displayed one, scrolled at 3500
    (vertical axis) or at 300 (horizontal axis). *)
Definition vertical_window : Manager :=
  scrolled_manager (settings_of (Some "vertical") false None None)
    [sample_view 0 3 false; sample_view 1 4 true] 0 3500.

Definition ltr_window : Manager :=
  scrolled_manager (settings_of (Some "horizontal") false None None)
    [sample_view 0 3 false; sample_view 1 4 true] 300 0.

Definition rtl_viewport_window : Manager :=
  scrolled_manager
    (settings_of (Some "horizontal") true (Some "rtl") (Some "negative"))
    [sample_view 0 3 false; sample_view 1 4 true] 300 0.


(** ** moveTo *)


(** Sum of the heights of a list of views. *)
Definition total_height (ws : list View) : Q :=
  fold_right (fun v acc => height v + acc) 0 ws.

(** A window of two hidden views above one displayed view, vertical axis. *)
Definition stacked_window : Manager :=
  scrolled_manager (settings_of (Some "vertical") false None None)
    [sample_view 0 2 false; sample_view 1 3 false; sample_view 2 4 false;
     sample_view 3 5 true] 0 3500.

(** A window of three views none of which is displayed. *)
Definition hidden_window : Manager :=
  scrolled_manager (settings_of (Some "vertical") false None None)
    [sample_view 0 2 false; sample_view 1 3 false; sample_view 2 4 false]
    0 3500.



(** ** Contiguity of the window *)

(** The sections of the window, in window order. *)
Definition window_sections (m : Manager) : list Section :=
  map section (views m).

(** A run of sections of one document, in document order, without gap. *)
Definition consecutive (ss : list Section) : Prop :=
  exists i N,
    ss = map (fun k => mkSection k N) (seq i (List.length ss)) /\
    (i + List.length ss <= N)%nat.

(** The number of displays a visibility pass with margin [o] starts. *)
Definition to_render (isVisible : View -> Q -> Q -> bool) (o : Q)
    (ws : list View) : list View :=
  filter (fun v => isVisible v o o && negb (displayed v)) ws.

(** The margin [update(_offset)] works with. *)
Definition update_margin (_offset : option Q) (m : Manager) : Q :=
  match _offset with
  | Some x => x
  | None => or_else (offset (settings m)) 0
  end.

(** What the visibility pass itself never changes: which views are in the
    window, in which order and for which section, and the settings. *)
Definition pass_frame (m : Manager) : list (nat * Section) * Settings :=
  (map (fun v => (vid v, section v)) (views m), settings m).


(** ** The scroll tracker: addScrollListeners, onScroll, scrolled *)

(** Events the manager emits. *)
Inductive Event : Type :=
| EScroll (top left : Q)      (* EVENTS.MANAGERS.SCROLL *)
| EScrolled (top left : Q).   (* EVENTS.MANAGERS.SCROLLED *)

(** The manager together with the fields only the scroll listeners use.  A
    number that may be NaN or [undefined] is an [option]; arithmetic with
    such a value gives NaN.  The debounced [this._scrolled] is called or not
    ([scrolled_pending]) and runs once when its quiet period ends; a timer is
    pending or not. *)
Record Scroller : Type := mkScroller {
  s_m : Manager;
  ignore : bool;
  scrollDeltaVert : option Q;
  scrollDeltaHorz : option Q;
  prevScrollTop : option Q;
  prevScrollLeft : option Q;
  didScroll : bool;
  scrolled_pending : bool;
  scrollTimeout : bool;
  afterScrolled : bool;
  emitted : list Event
}.

Definition set_tracked (top lft : Q) (m : Manager) : Manager :=
  mkManager (name m) (settings m) (views m) (next_vid m) (q m) top lft
    (bounds_width m) (bounds_height m) (writingMode m) (layout m)
    (isPaginated m) (dom m) (timers m) (next_timer m) (trimTimeout m).

(** [dir] of [addScrollListeners] and [onScroll]. *)
Definition scroll_dir (m : Manager) : Q :=
  if rtl m && str_is (rtlScrollType (settings m)) "default" then -1 else 1.

(** The position the listeners read from the scroll owner. *)
Definition read_scroll (m : Manager) : Q * Q :=
  if negb (fullsize (settings m)) then
    (container_scrollTop (dom m), container_scrollLeft (dom m))
  else
    (window_scrollY (dom m) * scroll_dir m,
     window_scrollX (dom m) * scroll_dir m).

(** [acc += Math.abs(x - prev)]. *)
Definition accumulate (acc : option Q) (x : Q) (prev : option Q) : option Q :=
  match acc, prev with
  | Some a, Some p => Some (a + Qabs (x - p))
  | _, _ => None
  end.

(** [addScrollListeners()]. *)
Definition addScrollListeners (s : Scroller) : Scroller :=
  let '(top, lft) := read_scroll (s_m s) in
  mkScroller (set_tracked top lft (s_m s)) (ignore s) (Some 0) (Some 0)
    (prevScrollTop s) (prevScrollLeft s) false (scrolled_pending s)
    (scrollTimeout s) (afterScrolled s) (emitted s).

(** [onScroll()]. *)
Definition onScroll (s : Scroller) : Scroller :=
  let '(scrollTop, scrollLeft) := read_scroll (s_m s) in
  let m := set_tracked scrollTop scrollLeft (s_m s) in
  let pending := if negb (ignore s) then true else scrolled_pending s in
  let ignore' := if negb (ignore s) then ignore s else false in
  mkScroller m ignore'
    (accumulate (scrollDeltaVert s) scrollTop (prevScrollTop s))
    (accumulate (scrollDeltaHorz s) scrollLeft (prevScrollLeft s))
    (Some scrollTop) (Some scrollLeft) false pending true false (emitted s).

(** The callback of the 150 timer armed by [onScroll]. *)
Definition reset_deltas (s : Scroller) : Scroller :=
  if scrollTimeout s then
    mkScroller (s_m s) (ignore s) (Some 0) (Some 0) (prevScrollTop s)
      (prevScrollLeft s) (didScroll s) (scrolled_pending s) false
      (afterScrolled s) (emitted s)
  else s.

(** [scrolled()]. *)
Definition scrolled (s : Scroller) : Scroller :=
  mkScroller (enqueue TCheck (s_m s)) (ignore s) (scrollDeltaVert s)
    (scrollDeltaHorz s) (prevScrollTop s) (prevScrollLeft s) (didScroll s)
    (scrolled_pending s) (scrollTimeout s) true
    (emitted s ++ [EScroll (scrollTop (s_m s)) (scrollLeft (s_m s))]).

(** End of the quiet period of the debounced [_scrolled]
    ([debounce(this.scrolled.bind(this), 30)] of lodash, with its default of
    one trailing call): [scrolled] runs once if [_scrolled] was called since
    the last run, however often. *)
Definition run_debounced (s : Scroller) : Scroller :=
  if scrolled_pending s then
    scrolled
      (mkScroller (s_m s) (ignore s) (scrollDeltaVert s) (scrollDeltaHorz s)
         (prevScrollTop s) (prevScrollLeft s) (didScroll s) false
         (scrollTimeout s) (afterScrolled s) (emitted s))
  else s.

(** The callback of the timer armed by [scrolled]; [about_to_snap] is
    [this.snapper && this.snapper.supportsTouch && this.snapper.needsSnap()]. *)
Definition after_scrolled (about_to_snap : bool) (s : Scroller) : Scroller :=
  if afterScrolled s then
    mkScroller (s_m s) (ignore s) (scrollDeltaVert s) (scrollDeltaHorz s)
      (prevScrollTop s) (prevScrollLeft s) (didScroll s) (scrolled_pending s)
      (scrollTimeout s) false
      (if about_to_snap then emitted s
       else emitted s ++ [EScrolled (scrollTop (s_m s)) (scrollLeft (s_m s))])
  else s.

(** A scroll event: the scroll owner is at the position [d] when the
    listener runs. *)
Definition scroll_event (s : Scroller) (d : Dom) : Scroller :=
  onScroll
    (mkScroller (set_dom d (s_m s)) (ignore s) (scrollDeltaVert s)
       (scrollDeltaHorz s) (prevScrollTop s) (prevScrollLeft s) (didScroll s)
       (scrolled_pending s) (scrollTimeout s) (afterScrolled s) (emitted s)).

(** A listener state around a manager, nothing pending. *)
Definition listening (m : Manager) (ign : bool) : Scroller :=
  mkScroller m ign (Some 0) (Some 0) (Some (scrollTop m)) (Some (scrollLeft m))
    false false false false [].

(** * Navigation (src/unnamed/part_001): unpack, get, getByIndex, load *)

Module Navigation.

Local Open Scope nat_scope.

(** A navigation item.  [id] is a string, [undefined] or [false]; [href] is
    a string or [null]; both are [None] when they are no string. *)
Inductive NavItem : Type :=
| mkNavItem (id href label : option string) (subitems : list NavItem).

Definition id (it : NavItem) : option string :=
  match it with mkNavItem i _ _ _ => i end.

Definition href (it : NavItem) : option string :=
  match it with mkNavItem _ h _ _ => h end.

Definition label (it : NavItem) : option string :=
  match it with mkNavItem _ _ l _ => l end.

Definition subitems (it : NavItem) : list NavItem :=
  match it with mkNavItem _ _ _ s => s end.

(** A plain object ([{}]) used as a map from strings to indices, as the
    list of its own properties: an assignment puts the pair in front, a
    lookup takes the first pair of the key. *)
Definition Index : Type := list (string * nat).

Fixpoint lookup_own (k : string) (o : Index) : option nat :=
  match o with
  | [] => None
  | (k', i) :: rest => if String.eqb k' k then Some i else lookup_own k rest
  end.

(** [o[k] = i].  The key ['__proto__'] is the accessor every plain object
    inherits: its setter ignores a value that is no object, so that the
    assignment of an index to it is dropped. *)
Definition assign (k : string) (i : nat) (o : Index) : Index :=
  if String.eqb k "__proto__" then o else (k, i) :: o.

(** [o[k]] as an index of an array.  For ['__proto__'] the value read is
    [Object.prototype], and for any other key that is no own property it is
    [undefined] or an inherited function: none of these is an index, and
    [navItems[index]] is [undefined] for all of them, as for [None]. *)
Definition lookup (k : string) (o : Index) : option nat :=
  if String.eqb k "__proto__" then None else lookup_own k o.

(** The fields of a [Navigation] object that [unpack] and [get] use. *)
Record Nav : Type := mkNav {
  toc : list NavItem;
  tocByHref : Index;
  tocById : Index;
  length : nat
}.

(** Truthiness of a string that may be missing: the empty string is falsy. *)
Definition truthy_string (s : option string) : bool :=
  match s with
  | Some x => negb (String.eqb x "")
  | None => false
  end.

(** [for (let i = 0; i < l.length; i++) body(i, l[i])] from index [j]. *)
Definition for_each_indexed {A St : Type} (body : nat -> A -> St -> St)
    : list A -> nat -> St -> St :=
  fix loop (l : list A) (j : nat) (st : St) : St :=
    match l with
    | [] => st
    | x :: rest => loop rest (S j) (body j x st)
    end.

(** One turn of the loop of [unpack(toc)] for the item at index [i]; the
    nested call [this.unpack(item.subitems)] is the inner loop (it is made
    only for a non-empty array, and does nothing on an empty one). *)
Fixpoint unpack_item (i : nat) (item : NavItem) (n : Nav) {struct item} : Nav :=
  match item with
  | mkNavItem item_id item_href _ item_subitems =>
      let n :=
        match item_href with
        | Some h =>
            if truthy_string item_href
            then mkNav (toc n) (assign h i (tocByHref n)) (tocById n) (length n)
            else n
        | None => n
        end in
      let n :=
        match item_id with
        | Some d =>
            if truthy_string item_id
            then mkNav (toc n) (tocByHref n) (assign d i (tocById n)) (length n)
            else n
        | None => n
        end in
      let n := mkNav (toc n) (tocByHref n) (tocById n) (S (length n)) in
      for_each_indexed unpack_item item_subitems 0 n
  end.

(** [unpack(toc)]. *)
Definition unpack (items : list NavItem) (n : Nav) : Nav :=
  for_each_indexed unpack_item items 0 n.

(** [target === item.id || target === item.href]. *)
Definition matches (target : string) (item : NavItem) : bool :=
  match id item with Some d => String.eqb target d | None => false end
  || match href item with Some h => String.eqb target h | None => false end.

(** The loop of [getByIndex]: the first truthy result. *)
Definition first_result {A B : Type} (f : A -> option B)
    : list A -> option B :=
  fix loop (l : list A) : option B :=
    match l with
    | [] => None
    | x :: rest =>
        match f x with
        | Some r => Some r
        | None => loop rest
        end
    end.

(** The body of [getByIndex(target, index, navItems)], [below] being the
    recursive call on the subitems of an item. *)
Definition getByIndex_body (target : string) (index : option nat)
    (below : NavItem -> option NavItem) (navItems : list NavItem)
    : option NavItem :=
  match navItems with
  | [] => None
  | _ :: _ =>
      let item := match index with
                  | Some i => nth_error navItems i
                  | None => None
                  end in
      match item with
      | Some x =>
          if matches target x then Some x
          else first_result below navItems
      | None => first_result below navItems
      end
  end.

(** [getByIndex(target, index, item.subitems)]. *)
Fixpoint getByIndex_below (target : string) (index : option nat)
    (item : NavItem) {struct item} : option NavItem :=
  match item with
  | mkNavItem _ _ _ item_subitems =>
      getByIndex_body target index (getByIndex_below target index)
        item_subitems
  end.

(** [getByIndex(target, index, navItems)]; [None] is [undefined]. *)
Definition getByIndex (target : string) (index : option nat)
    (navItems : list NavItem) : option NavItem :=
  getByIndex_body target index (getByIndex_below target index) navItems.

(** What [get] returns: the whole table of contents, an item, or
    [undefined]. *)
Inductive GetResult : Type :=
| GToc (items : list NavItem)
| GItem (item : NavItem)
| GUndefined.

(** [get(target)].  A key that is not an own property of the index object
    gives no index; this covers the properties every object inherits, for
    which [navItems[index]] is [undefined] as well. *)
Definition get (target : option string) (n : Nav) : GetResult :=
  match target with
  | None => GToc (toc n)
  | Some t =>
      if String.eqb t "" then GToc (toc n)
      else
        let index :=
          if String.prefix "#" t
          then lookup (String.substring 1 (String.length t - 1) t) (tocById n)
          else lookup t (tocByHref n) in
        match getByIndex t index (toc n) with
        | Some item => GItem item
        | None => GUndefined
        end
  end.

(** An item of the JSON form [load] takes. *)
Inductive Json : Type :=
| mkJson (id href title : option string) (children : option (list Json)).

(** [load(json)]: every item gets its title as label and its loaded
    children, or an empty array, as subitems. *)
Fixpoint load_item (j : Json) : NavItem :=
  match j with
  | mkJson j_id j_href j_title j_children =>
      mkNavItem j_id j_href j_title
        match j_children with
        | Some c => map load_item c
        | None => []
        end
  end.

Definition load (json : list Json) : list NavItem := map load_item json.

(** [parse(xml)] for an input that is not an XML document: the table of
    contents is loaded, [length] is reset and the items are unpacked into the
    indices the object already has. *)
Definition parse_json (json : list Json) (n : Nav) : Nav :=
  unpack (load json)
    (mkNav (load json) (tocByHref n) (tocById n) 0).

(** The object as the constructor initialises it. *)
Definition empty_nav : Nav := mkNav [] [] [] 0.

(** Number of items of a forest, at all depths. *)
Fixpoint count_item (it : NavItem) : nat :=
  match it with
  | mkNavItem _ _ _ s => S (fold_right (fun x acc => count_item x + acc) 0 s)
  end.

Definition count_items (l : list NavItem) : nat :=
  fold_right (fun x acc => count_item x + acc) 0 l.

Fixpoint count_json_item (j : Json) : nat :=
  match j with
  | mkJson _ _ _ c =>
      S match c with
        | Some l => fold_right (fun x acc => count_json_item x + acc) 0 l
        | None => 0
        end
  end.

Definition count_json (l : list Json) : nat :=
  fold_right (fun x acc => count_json_item x + acc) 0 l.

(** No item of the forest, at any depth, has [h] as id or as href. *)
Fixpoint mentions (h : string) (it : NavItem) : bool :=
  match it with
  | mkNavItem i r _ s =>
      matches h (mkNavItem i r None []) || existsb (mentions h) s
  end.

Definition clean (h : string) (l : list NavItem) : Prop :=
  existsb (mentions h) l = false.

(** [x] is the one item with href [h] of the forest, at position [j] among
    its siblings: no other item, at any depth, has [h] as id or href. *)
Inductive only_at (h : string) (x : NavItem) (j : nat)
    : list NavItem -> Prop :=
| only_here : forall pre post,
    j = List.length pre ->
    href x = Some h -> clean h pre -> clean h (subitems x) -> clean h post ->
    only_at h x j (pre ++ x :: post)
| only_below : forall pre y post,
    matches h y = false -> clean h pre -> clean h post ->
    only_at h x j (subitems y) ->
    only_at h x j (pre ++ y :: post).

(** [x] occurs in the forest, at some depth. *)
Inductive occurs (x : NavItem) : list NavItem -> Prop :=
| occurs_here : forall l, In x l -> occurs x l
| occurs_below : forall l y, In y l -> occurs x (subitems y) -> occurs x l.

End Navigation.

(** A table of contents with a nested chapter. *)
Definition sample_toc : list Navigation.NavItem :=
  [Navigation.mkNavItem (Some "c1") (Some "ch1.xhtml") (Some "One") [];
   Navigation.mkNavItem (Some "c2") (Some "ch2.xhtml") (Some "Two")
     [Navigation.mkNavItem (Some "c2a") (Some "ch2.xhtml#a") (Some "Two A") [];
      Navigation.mkNavItem (Some "c2b") (Some "ch2b.xhtml") (Some "Two B") []];
   Navigation.mkNavItem (Some "c3") (Some "ch3.xhtml") (Some "Three") []].

Definition sample_json : list Navigation.Json :=
  [Navigation.mkJson (Some "c1") (Some "ch1.xhtml") (Some "One") None;
   Navigation.mkJson (Some "c2") (Some "ch2.xhtml") (Some "Two")
     (Some [Navigation.mkJson (Some "c2a") (Some "ch2a.xhtml") (Some "Two A")
              (Some [])])].

(** * PageList (src/unnamed/part_000): process, cfiFromPage,
    percentageFromPage *)

Module PageList.

(** An item of the parsed page list.  [cfi] is a string, [false] or absent
    ([None] when it is no string); [page] is what [parseInt] gave: an integer,
    or NaN ([None]). *)
Record Item : Type := mkItem {
  cfi : option string;
  href : string;
  page : option Z
}.

(** The fields of a [PageList] object the functions below use; a number
    that may be NaN is an [option]. *)
Record PageList : Type := mkPageList {
  pages : list (option Z);
  locations : list string;
  firstPage : option Z;
  lastPage : option Z;
  totalPages : option Z
}.

(** The object as the constructor initialises it, before [process]. *)
Definition empty : PageList := mkPageList [] [] (Some 0%Z) (Some 0%Z) (Some 0%Z).

(** [parseInt(x)] of an element of [pages], which is an integer, NaN, or
    [undefined] when the array is empty: an integer (of less than 22
    digits) is read back as itself, everything else gives NaN. *)
Definition parseInt_page (x : option (option Z)) : option Z :=
  match x with
  | Some (Some z) => Some z
  | _ => None
  end.

(** [a - b] on numbers that may be NaN. *)
Definition minus (a b : option Z) : option Z :=
  match a, b with
  | Some x, Some y => Some (x - y)%Z
  | _, _ => None
  end.

(** The callback of [forEach] in [process]. *)
Definition process_item (pl : PageList) (item : Item) : PageList :=
  let pages := pages pl ++ [page item] in
  let locations :=
    match cfi item with
    | Some c => if String.eqb c "" then locations pl else locations pl ++ [c]
    | None => locations pl
    end in
  mkPageList pages locations (firstPage pl) (lastPage pl) (totalPages pl).

(** [process(pageList)]. *)
Definition process (pageList : list Item) (pl : PageList) : PageList :=
  let pl := fold_left process_item pageList pl in
  let first := parseInt_page (nth_error (pages pl) 0) in
  let last := parseInt_page
                (item (pages pl) (Z.of_nat (List.length (pages pl)) - 1)) in
  mkPageList (pages pl) (locations pl) first last (minus last first).

(** [pages.indexOf(pg)]: strict equality, so NaN is never found. *)
Fixpoint indexOf_from (i : nat) (pg : option Z) (l : list (option Z))
    : option nat :=
  match l with
  | [] => None
  | x :: rest =>
      match pg, x with
      | Some a, Some b =>
          if (a =? b)%Z then Some i else indexOf_from (S i) pg rest
      | _, _ => indexOf_from (S i) pg rest
      end
  end.

(** What [cfiFromPage] returns: [-1], [undefined] or a string. *)
Inductive CfiResult : Type :=
| NotFound
| Undefined
| Cfi (c : string).

(** [cfiFromPage(pg)] for a number [pg]. *)
Definition cfiFromPage (pg : option Z) (pl : PageList) : CfiResult :=
  match indexOf_from 0 pg (pages pl) with
  | Some index =>
      match nth_error (locations pl) index with
      | Some c => Cfi c
      | None => Undefined
      end
  | None => NotFound
  end.

(** [Math.round]: the nearest integer, a tie going up. *)
Definition Math_round (x : Q) : Z := Qfloor (x + (1 # 2)).

(** [percentageFromPage(pg)]; [None] when the result is no finite number:
    NaN when [firstPage] or [totalPages] is NaN, NaN or an infinity when
    [totalPages] is 0. *)
Definition percentageFromPage (pg : Q) (pl : PageList) : option Q :=
  match firstPage pl, totalPages pl with
  | Some f, Some t =>
      if (t =? 0)%Z then None
      else
        let percentage := (pg - inject_Z f) / inject_Z t in
        Some (inject_Z (Math_round (percentage * 1000)) / 1000)
  | _, _ => None
  end.

(** The item has a cfi that [process] records. *)
Definition has_cfi (it : Item) : Prop :=
  exists c, cfi it = Some c /\ c <> "".

End PageList.

(** A page list of three pages. *)
Definition sample_pages : list PageList.Item :=
  [PageList.mkItem (Some "epubcfi(/6/2!/4/2)") "a.xhtml#epubcfi(/6/2!/4/2)"
     (Some 5%Z);
   PageList.mkItem (Some "epubcfi(/6/4!/4/2)") "b.xhtml#epubcfi(/6/4!/4/2)"
     (Some 6%Z);
   PageList.mkItem (Some "epubcfi(/6/6!/4/2)") "c.xhtml#epubcfi(/6/6!/4/2)"
     (Some 9%Z)].

(** * Properties *)

(** ** Constructor *)

(** C9: constructed with options whose settings have gap = 0, the manager's
    gap setting is that 0 whatever [extend] does with falsy values; with gap
    unset the constructor adds nothing to what [extend] produced. *)
Theorem constructor_gap_zero :
  forall (extend : Settings -> Settings -> Settings) (base : Manager)
         (bs : option Settings) (os : Settings),
    (forall g, gap os = VNumber g -> g == 0 ->
       exists m, constructor extend base bs (mkOptions (Some os)) = Normal m /\
                 gap (settings m) = VNumber g /\
                 strict_eq_zero (gap (settings m)) = true) /\
    (gap os = VUndefined ->
       exists m, constructor extend base bs (mkOptions (Some os)) = Normal m /\
                 settings m =
                   extend (extend (match bs with
                                   | Some s => s
                                   | None => empty_settings
                                   end) continuous_defaults) os).
Proof.
  intros extend base bs os. split.
  - intros g Hg Hz. unfold constructor. cbn [o_settings]. rewrite Hg.
    cbn [loose_neq_undefined_literal strict_eq_zero andb].
    apply Qeq_bool_iff in Hz. rewrite Hz.
    eexists. split; [reflexivity|]. cbn. now rewrite Hz.
  - intros Hu. unfold constructor. cbn [o_settings]. rewrite Hu.
    cbn [loose_neq_undefined_literal strict_eq_zero andb].
    eexists. split; reflexivity.
Qed.

(** [gap = 0] survives an [extend] that drops every option; an unset gap
    stays undefined with the same [extend]. *)
Lemma constructor_gap_zero_witness :
  (exists m,
     constructor (fun t _ => t) (sample_manager empty_settings []) None
       (mkOptions (Some (set_gap (VNumber 0) empty_settings))) = Normal m /\
     gap (settings m) = VNumber 0 /\
     strict_eq_zero (gap (settings m)) = true) /\
  (exists m,
     constructor (fun t _ => t) (sample_manager empty_settings []) None
       (mkOptions (Some empty_settings)) = Normal m /\
     settings m = empty_settings).
Proof.
  split.
  - apply (proj1 (constructor_gap_zero (fun t _ => t)
                    (sample_manager empty_settings []) None
                    (set_gap (VNumber 0) empty_settings)) 0).
    + reflexivity.
    + reflexivity.
  - apply (proj2 (constructor_gap_zero (fun t _ => t)
                    (sample_manager empty_settings []) None empty_settings)).
    reflexivity.
Defined.

(** ** Lookahead margin *)

Lemma or_else_zero : forall h d, truthy h = false -> or_else h d = d.
Proof.
  intros [x|] d H; cbn in *; [|reflexivity].
  destruct (Qeq_bool x 0); [reflexivity|discriminate].
Qed.

(** C10: the margin of [check] is [settings.offset] (0 when that is unset)
    unless the hint of the active axis is truthy, in which case it is that
    hint; a hint of 0 does not override, and the hint of the inactive axis
    is ignored. *)
Theorem check_delta_hint :
  forall (m : Manager) (hl ht : option Q),
    let active := if horizontal m then hl else ht in
    (truthy active = false ->
       check_delta m hl ht = or_else (offset (settings m)) 0) /\
    (forall h, active = Some h -> ~ h == 0 -> check_delta m hl ht = h) /\
    (forall z, active = Some z -> z == 0 ->
       check_delta m hl ht = or_else (offset (settings m)) 0) /\
    (forall q, offset (settings m) = Some q ->
       or_else (offset (settings m)) 0 == q) /\
    (forall h',
       check_delta m (if horizontal m then hl else h')
                     (if horizontal m then h' else ht) = check_delta m hl ht).
Proof.
  intros m hl ht active.
  assert (Hgen : check_delta m hl ht =
                 if truthy active
                 then match active with Some h => h | None => 0 end
                 else or_else (offset (settings m)) 0).
  { unfold check_delta, active. destruct (horizontal m); cbn [negb].
    - rewrite andb_true_r, andb_false_r.
      destruct (truthy hl) eqn:E; [|reflexivity].
      destruct hl; [reflexivity|discriminate].
    - rewrite andb_true_r, andb_false_r.
      destruct (truthy ht) eqn:E; [|reflexivity].
      destruct ht; [reflexivity|discriminate]. }
  repeat split.
  - intros H. now rewrite Hgen, H.
  - intros h Ha Hh. rewrite Hgen, Ha. cbn.
    destruct (Qeq_bool h 0) eqn:E; [|reflexivity].
    apply Qeq_bool_iff in E. contradiction.
  - intros z Ha Hz. rewrite Hgen, Ha. cbn.
    apply Qeq_bool_iff in Hz. now rewrite Hz.
  - intros x Hx. rewrite Hx. cbn.
    destruct (Qeq_bool x 0) eqn:E; [|reflexivity].
    apply Qeq_bool_iff in E. symmetry. exact E.
  - intros h'. unfold check_delta. destruct (horizontal m); cbn [negb];
      rewrite ?andb_true_r, ?andb_false_r; reflexivity.
Qed.

Lemma check_delta_hint_witness :
  check_delta (sample_manager horizontal_settings []) (Some 0) (Some 70) = 500
  /\ check_delta (sample_manager horizontal_settings []) (Some 40) (Some 70) = 40
  /\ check_delta (sample_manager horizontal_settings []) None (Some 70) = 500
  /\ or_else (offset (settings (sample_manager horizontal_settings []))) 0
     == 500.
Proof.
  pose proof (check_delta_hint (sample_manager horizontal_settings [])) as T.
  split; [|split; [|split]].
  - apply (proj1 (proj2 (proj2 (T (Some 0) (Some 70)))) 0);
      [reflexivity | reflexivity].
  - apply (proj1 (proj2 (T (Some 40) (Some 70))) 40);
      [reflexivity | discriminate].
  - apply (proj1 (T None (Some 70))). reflexivity.
  - apply (proj1 (proj2 (proj2 (proj2 (T None None)))) 500). reflexivity.
Defined.

(** ** Scroll normalisation *)

Lemma default_not_negative :
  forall t, str_is t "default" = true -> str_is t "negative" = false.
Proof.
  intros [s|] H; cbn in *; [|reflexivity].
  apply String.eqb_eq in H. subst s. reflexivity.
Qed.

Lemma times_minus_one : forall x : Q, x * (-1) == - x.
Proof. intros x. ring. Qed.

(** C1 (as the code has it): with direction rtl, a bounded container and a
    horizontal writing mode, policy 'default' gives
    contentLength - visibleLength - raw and policy 'negative' gives -raw; with
    direction rtl and the whole viewport, a horizontal axis with policy
    'negative' and a non-horizontal axis with policy 'default' give -raw;
    every other combination leaves the raw offset unchanged. *)
Theorem check_offset_rules :
  forall m : Manager,
    let t := rtlScrollType (settings m) in
    (fullsize (settings m) = false -> rtl m = true ->
     str_is t "default" = true -> writingMode_horizontal m = true ->
     check_offset m = contentLength m - visibleLength m - raw_offset m) /\
    (fullsize (settings m) = false -> rtl m = true ->
     str_is t "negative" = true -> writingMode_horizontal m = true ->
     check_offset m == - raw_offset m) /\
    (fullsize (settings m) = true -> rtl m = true ->
     horizontal m = true -> str_is t "negative" = true ->
     check_offset m == - raw_offset m) /\
    (fullsize (settings m) = true -> rtl m = true ->
     horizontal m = false -> str_is t "default" = true ->
     check_offset m == - raw_offset m) /\
    (normalisation_applies m = false -> check_offset m = raw_offset m).
Proof.
  intros m t. unfold check_offset, normalisation_applies. fold t.
  repeat split.
  - intros Hf Hr Hd Hw. rewrite Hf, Hr, Hd, Hw.
    rewrite (default_not_negative _ Hd). reflexivity.
  - intros Hf Hr Hn Hw. rewrite Hf, Hr, Hn, Hw. cbn [negb andb].
    destruct (str_is t "default") eqn:Hd.
    + rewrite (default_not_negative _ Hd) in Hn. discriminate.
    + apply times_minus_one.
  - intros Hf Hr Hh Hn. rewrite Hf, Hr, Hh, Hn. cbn [negb andb orb].
    apply times_minus_one.
  - intros Hf Hr Hh Hd. rewrite Hf, Hr, Hh, Hd. cbn [negb andb orb].
    apply times_minus_one.
  - destruct (fullsize (settings m)), (rtl m), (horizontal m),
      (writingMode_horizontal m), (str_is t "default"),
      (str_is t "negative"); cbn; intros H;
      reflexivity || discriminate.
Qed.

Lemma check_offset_rules_witness :
  check_offset container_default = 3000 - Math_floor 600 - 200
  /\ check_offset container_negative == - (-200)
  /\ check_offset viewport_negative == - (-200)
  /\ check_offset viewport_default_vertical == - 5
  /\ check_offset viewport_negative_vertical = 5.
Proof.
  split; [|split; [|split; [|split]]].
  - exact (proj1 (check_offset_rules container_default)
             eq_refl eq_refl eq_refl eq_refl).
  - exact (proj1 (proj2 (check_offset_rules container_negative))
             eq_refl eq_refl eq_refl eq_refl).
  - exact (proj1 (proj2 (proj2 (check_offset_rules viewport_negative)))
             eq_refl eq_refl eq_refl eq_refl).
  - exact (proj1 (proj2 (proj2 (proj2
             (check_offset_rules viewport_default_vertical))))
             eq_refl eq_refl eq_refl eq_refl).
  - exact (proj2 (proj2 (proj2 (proj2
             (check_offset_rules viewport_negative_vertical)))) eq_refl).
Defined.

(** C1 as stated fails: with the whole viewport as scroll owner, direction
    rtl, policy 'default' and a vertical axis none of the three stated rules
    applies, yet the raw offset 5 is not left unchanged (it becomes -5). *)
Lemma check_offset_counterexample :
  spec_rule_subtract viewport_default_vertical = false
  /\ spec_rule_flip_container viewport_default_vertical = false
  /\ spec_rule_flip_viewport viewport_default_vertical = false
  /\ raw_offset viewport_default_vertical == 5
  /\ check_offset viewport_default_vertical == -5
  /\ ~ check_offset viewport_default_vertical
       == raw_offset viewport_default_vertical.
Proof.
  repeat split; try reflexivity. intros H. vm_compute in H. discriminate.
Qed.

(** ** Eviction: scroll compensation *)

(** C4 (as the code has it): [erase] of an "above" view takes the extent
    measured before the removal and moves the scroll owner from P to
    P - height on a vertical axis, to P - floor(width) otherwise with
    direction ltr, to P + floor(width) with direction rtl on the whole
    viewport, and leaves P as it is with direction rtl in a bounded
    container; the other coordinate is set to 0. *)
Theorem erase_above_compensation :
  forall (view : View) (m : Manager),
    let m' := erase view true m in
    let vertical := str_is (axis (settings m)) "vertical" in
    views m' = Views.remove (vid view) (views m) /\
    (vertical = true ->
       owner_top m' = owner_top m - height view /\ owner_left m' = 0) /\
    (vertical = false -> rtl m = false ->
       owner_left m' = owner_left m - Math_floor (width view) /\
       owner_top m' = 0) /\
    (vertical = false -> rtl m = true -> fullsize (settings m) = true ->
       owner_left m' = owner_left m + Math_floor (width view) /\
       owner_top m' = 0) /\
    (vertical = false -> rtl m = true -> fullsize (settings m) = false ->
       owner_left m' = owner_left m /\ owner_top m' = 0).
Proof.
  intros view m m' vertical. subst m' vertical.
  unfold erase, rtl, owner_left, owner_top, scrollTo. cbn [settings set_views].
  destruct (str_is (axis (settings m)) "vertical");
    destruct (str_is (direction (settings m)) "rtl");
    destruct (fullsize (settings m)) eqn:Hf; cbn; rewrite ?Hf; cbn;
    repeat split; intros; try discriminate; reflexivity.
Qed.

Lemma erase_above_compensation_witness :
  (owner_top (erase (sample_view 0 3 false) true vertical_window)
   = 3500 - 1000
   /\ owner_left (erase (sample_view 0 3 false) true vertical_window) = 0)
  /\ (owner_left (erase (sample_view 0 3 false) true ltr_window)
      = 300 - Math_floor 100
      /\ owner_top (erase (sample_view 0 3 false) true ltr_window) = 0)
  /\ (owner_left (erase (sample_view 0 3 false) true rtl_viewport_window)
      = 300 + Math_floor 100
      /\ owner_top (erase (sample_view 0 3 false) true rtl_viewport_window)
         = 0)
  /\ (owner_left (erase (sample_view 0 3 false) true rtl_container_window)
      = owner_left rtl_container_window
      /\ owner_top (erase (sample_view 0 3 false) true rtl_container_window)
         = 0).
Proof.
  split; [|split; [|split]].
  - exact (proj1 (proj2
             (erase_above_compensation (sample_view 0 3 false)
                vertical_window)) eq_refl).
  - exact (proj1 (proj2 (proj2
             (erase_above_compensation (sample_view 0 3 false) ltr_window)))
             eq_refl eq_refl).
  - exact (proj1 (proj2 (proj2 (proj2
             (erase_above_compensation (sample_view 0 3 false)
                rtl_viewport_window)))) eq_refl eq_refl eq_refl).
  - exact (proj2 (proj2 (proj2 (proj2
             (erase_above_compensation (sample_view 0 3 false)
                rtl_container_window)))) eq_refl eq_refl eq_refl).
Defined.

(** C4 as stated fails: in a bounded container with a horizontal axis and
    direction rtl, erasing an "above" view of extent 100 at position 300
    leaves the position at 300: it is neither 300 - 100 nor 300 + 100. *)
Lemma erase_above_counterexample :
  Math_floor (width (sample_view 0 3 false)) == 100
  /\ owner_left rtl_container_window == 300
  /\ owner_left (erase (sample_view 0 3 false) true rtl_container_window)
     == 300
  /\ ~ owner_left (erase (sample_view 0 3 false) true rtl_container_window)
       == owner_left rtl_container_window
          - Math_floor (width (sample_view 0 3 false))
  /\ ~ owner_left (erase (sample_view 0 3 false) true rtl_container_window)
       == owner_left rtl_container_window
          + Math_floor (width (sample_view 0 3 false)).
Proof.
  repeat split; try reflexivity; intros H; vm_compute in H; discriminate.
Qed.

(** ** Pagination navigator *)

Lemma scrollBy_settings :
  forall x y m, settings (scrollBy x y m) = settings m.
Proof.
  intros x y m. unfold scrollBy, scrollTo.
  destruct (fullsize (settings m)); reflexivity.
Qed.

Lemma scrollBy_owner_left :
  forall x y m, owner_left (scrollBy x y m) = owner_left m + x.
Proof.
  intros x y m. unfold owner_left, scrollBy, scrollTo.
  destruct (fullsize (settings m)) eqn:Hf; cbn; rewrite Hf; reflexivity.
Qed.

Lemma scrollBy_owner_top :
  forall x y m, owner_top (scrollBy x y m) = owner_top m + y.
Proof.
  intros x y m. unfold owner_top, scrollBy, scrollTo.
  destruct (fullsize (settings m)) eqn:Hf; cbn; rewrite Hf; reflexivity.
Qed.

Lemma scrollBy_frame :
  forall x y m,
    views (scrollBy x y m) = views m /\ q (scrollBy x y m) = q m /\
    layout (scrollBy x y m) = layout m /\
    isPaginated (scrollBy x y m) = isPaginated m.
Proof.
  intros x y m. unfold scrollBy, scrollTo.
  destruct (fullsize (settings m)); repeat split; reflexivity.
Qed.

(** C7: with a non-empty window and the layout unchanged, [next()] followed
    by [prev()] puts the scroll owner back where it was; both calls leave a
    [check] in the queue. *)
Theorem next_prev_inverse :
  forall m : Manager,
    views m <> [] ->
    owner_left (prev (next m)) == owner_left m /\
    owner_top (prev (next m)) == owner_top m /\
    views (prev (next m)) = views m /\
    q (prev (next m)) = q m ++ [TCheck; TCheck].
Proof.
  intros m Hne.
  assert (Hlen : (List.length (views m) =? 0)%nat = false).
  { destruct (views m); [contradiction|reflexivity]. }
  assert (Hnext : exists x y,
             next m = enqueue TCheck (scrollBy x y m) /\
             ((isPaginated m && horizontal m = true /\
               x = step_delta m /\ y = 0) \/
              (isPaginated m && horizontal m = false /\
               x = 0 /\ y = l_height (layout m)))).
  { unfold next. rewrite Hlen.
    destruct (isPaginated m && horizontal m); eexists; eexists;
      (split; [reflexivity|]); [left|right]; repeat split. }
  destruct Hnext as (x & y & Hn & Hxy).
  pose proof (scrollBy_frame x y m) as (Fv & Fq & Fl & Fp).
  pose proof (scrollBy_settings x y m) as Fs.
  set (m1 := next m).
  assert (Hv1 : views m1 = views m) by (subst m1; rewrite Hn; exact Fv).
  assert (Hs1 : settings m1 = settings m) by (subst m1; rewrite Hn; exact Fs).
  assert (Hl1 : layout m1 = layout m) by (subst m1; rewrite Hn; exact Fl).
  assert (Hp1 : isPaginated m1 = isPaginated m)
    by (subst m1; rewrite Hn; exact Fp).
  assert (Hq1 : q m1 = q m ++ [TCheck])
    by (subst m1; rewrite Hn; cbn; now rewrite Fq).
  assert (Hol1 : owner_left m1 = owner_left m + x).
  { subst m1. rewrite Hn. rewrite <- scrollBy_owner_left with (y := y).
    unfold owner_left, enqueue. reflexivity. }
  assert (Hot1 : owner_top m1 = owner_top m + y).
  { subst m1. rewrite Hn. rewrite <- scrollBy_owner_top with (x := x).
    unfold owner_top, enqueue. reflexivity. }
  assert (Hh1 : horizontal m1 = horizontal m)
    by (unfold horizontal; now rewrite Hs1).
  assert (Hd1 : step_delta m1 = step_delta m)
    by (unfold step_delta; now rewrite Hl1).
  assert (Hprev : prev m1 = enqueue TCheck (scrollBy (- x) (- y) m1) \/
                  (y = 0 /\ prev m1 = enqueue TCheck (scrollBy (- x) 0 m1)) \/
                  (x = 0 /\ prev m1 = enqueue TCheck (scrollBy 0 (- y) m1))).
  { unfold prev. rewrite Hv1, Hlen, Hp1, Hh1, Hd1, Hl1.
    destruct Hxy as [(Hc & Hx & Hy)|(Hc & Hx & Hy)]; rewrite Hc; subst x y.
    - right. left. split; reflexivity.
    - right. right. split; reflexivity. }
  assert (Hfin : exists x' y', prev m1 = enqueue TCheck (scrollBy x' y' m1) /\
                               x + x' == 0 /\ y + y' == 0).
  { destruct Hprev as [H|[(Hy & H)|(Hx & H)]].
    - exists (- x), (- y). split; [exact H|split; ring].
    - exists (- x), 0. split; [exact H|split; [ring|rewrite Hy; ring]].
    - exists 0, (- y). split; [exact H|split; [rewrite Hx; ring|ring]]. }
  destruct Hfin as (x' & y' & Hp & Hx' & Hy').
  pose proof (scrollBy_frame x' y' m1) as (Gv & Gq & _ & _).
  fold m1. rewrite Hp. repeat split.
  - change (owner_left (enqueue TCheck (scrollBy x' y' m1)))
      with (owner_left (scrollBy x' y' m1)).
    rewrite scrollBy_owner_left, Hol1. rewrite <- Qplus_assoc, Hx'. ring.
  - change (owner_top (enqueue TCheck (scrollBy x' y' m1)))
      with (owner_top (scrollBy x' y' m1)).
    rewrite scrollBy_owner_top, Hot1. rewrite <- Qplus_assoc, Hy'. ring.
  - cbn. now rewrite Gv.
  - cbn. rewrite Gq, Hq1. now rewrite <- app_assoc.
Qed.

Lemma next_prev_inverse_witness :
  owner_left (prev (next spread_window)) == 1200 /\
  owner_left (next spread_window) == 2400 /\
  q (prev (next spread_window)) = [TCheck; TCheck].
Proof.
  assert (Hne : views spread_window <> []) by discriminate.
  split; [|split].
  - exact (proj1 (next_prev_inverse spread_window Hne)).
  - reflexivity.
  - exact (proj2 (proj2 (proj2 (next_prev_inverse spread_window Hne)))).
Defined.

(** ** Eviction: what trim keeps *)

Lemma leading_app :
  forall A d X, Forall hidden A -> displayed d = true ->
                leading (A ++ d :: X) = A.
Proof.
  induction A as [|a A IH]; intros d X HA Hd; cbn.
  - now rewrite Hd.
  - inversion HA as [|? ? Ha HA']; subst. unfold hidden in Ha. rewrite Ha.
    f_equal. now apply IH.
Qed.

Lemma Forall_hidden_rev : forall B, Forall hidden B -> Forall hidden (rev B).
Proof. intros B H. now apply Forall_rev. Qed.

Lemma trailing_app :
  forall X e B, Forall hidden B -> displayed e = true ->
                trailing (X ++ e :: B) = B.
Proof.
  intros X e B HB He. unfold trailing.
  rewrite rev_app_distr. cbn [rev]. rewrite <- app_assoc. cbn [app].
  rewrite leading_app; [apply rev_involutive| now apply Forall_hidden_rev | exact He].
Qed.

Lemma leading_split :
  forall ws, existsb (fun v => displayed v) ws = true ->
             exists d t, ws = leading ws ++ d :: t /\ displayed d = true /\
                         Forall hidden (leading ws).
Proof.
  induction ws as [|v ws IH]; cbn; intros H; [discriminate|].
  destruct (displayed v) eqn:Hv.
  - exists v, ws. repeat split; [exact Hv|constructor].
  - cbn in H. destruct (IH H) as (d & t & Heq & Hd & HF).
    exists d, t. repeat split; [cbn; now rewrite <- Heq | exact Hd |].
    constructor; [exact Hv|exact HF].
Qed.

Lemma tail_split :
  forall t d, displayed d = true ->
              exists M e B, d :: t = M ++ e :: B /\ displayed e = true /\
                            Forall hidden B.
Proof.
  induction t as [|x t IH]; intros d Hd.
  - exists [], d, []. repeat split; [exact Hd|constructor].
  - destruct (displayed x) eqn:Hx.
    + destruct (IH x Hx) as (M & e & B & Heq & He & HB).
      exists (d :: M), e, B. cbn. rewrite Heq. repeat split; assumption.
    + destruct (IH d Hd) as (M & e & B & Heq & He & HB).
      destruct M as [|d' M].
      * cbn in Heq. injection Heq as E1 E2. subst e t.
        exists [], d, (x :: B). repeat split; [exact Hd|].
        constructor; [exact Hx|exact HB].
      * cbn in Heq. injection Heq as E1 E2. subst d' t.
        exists (d :: x :: M), e, B. repeat split; assumption.
Qed.

(** Every window with a displayed view splits in the hidden views above, the
    range from the first to the last displayed view, and the hidden views
    below. *)
Lemma window_split :
  forall ws, existsb (fun v => displayed v) ws = true ->
    exists A M e B,
      ws = A ++ (M ++ [e]) ++ B /\
      Forall hidden A /\ Forall hidden B /\ displayed e = true /\
      (exists d M', M ++ [e] = d :: M' /\ displayed d = true).
Proof.
  intros ws H. destruct (leading_split ws H) as (d & t & Heq & Hd & HA).
  destruct (tail_split t d Hd) as (M & e & B & Heq' & He & HB).
  exists (leading ws), M, e, B. repeat split; try assumption.
  - rewrite Heq at 1. rewrite Heq'. now rewrite <- app_assoc.
  - destruct M as [|d' M]; cbn in Heq'.
    + injection Heq' as E1 E2. subst e B. exists d, []. split; [reflexivity|exact Hd].
    + injection Heq' as E1 E2. subst d' t. exists d, (M ++ [e]).
      split; [reflexivity|exact Hd].
Qed.

Lemma shown_range_app :
  forall A M e B, Forall hidden A -> Forall hidden B -> displayed e = true ->
    (exists d M', M ++ [e] = d :: M' /\ displayed d = true) ->
    leading (A ++ (M ++ [e]) ++ B) = A /\
    trailing (A ++ (M ++ [e]) ++ B) = B /\
    shown_range (A ++ (M ++ [e]) ++ B) = M ++ [e].
Proof.
  intros A M e B HA HB He (d & M' & HM & Hd).
  assert (HL : leading (A ++ (M ++ [e]) ++ B) = A).
  { rewrite HM. cbn [app]. now apply leading_app. }
  assert (HT : trailing (A ++ (M ++ [e]) ++ B) = B).
  { rewrite <- app_assoc. cbn [app]. rewrite app_assoc.
    now apply trailing_app. }
  repeat split; [exact HL|exact HT|].
  unfold shown_range. rewrite HL, HT.
  rewrite skipn_app, skipn_all, Nat.sub_diag. cbn [skipn app].
  rewrite (length_app A), (length_app (M ++ [e]) B).
  replace (List.length A + (List.length (M ++ [e]) + List.length B)
           - List.length A - List.length B)%nat
    with (List.length (M ++ [e]) + 0)%nat by lia.
  rewrite firstn_app_2. cbn. now rewrite app_nil_r.
Qed.

Lemma scrollTo_views : forall x y m, views (scrollTo x y m) = views m.
Proof.
  intros x y m. unfold scrollTo. destruct (fullsize (settings m)); reflexivity.
Qed.

Lemma erase_views :
  forall v b m, views (erase v b m) = Views.remove (vid v) (views m).
Proof.
  intros v b m. unfold erase. cbn [settings set_views].
  destruct b; [|reflexivity].
  destruct (str_is (axis (settings m)) "vertical");
    [now rewrite scrollTo_views|].
  destruct (str_is (direction (settings m)) "rtl");
    [|now rewrite scrollTo_views].
  destruct (negb (fullsize (settings m))); now rewrite scrollTo_views.
Qed.

Lemma fold_erase_views :
  forall b L m,
    views (fold_left (fun acc v => erase v b acc) L m)
    = fold_left (fun ws v => Views.remove (vid v) ws) L (views m).
Proof.
  induction L as [|v L IH]; intros m; cbn; [reflexivity|].
  now rewrite IH, erase_views.
Qed.

Lemma skipn_nth_error :
  forall (A : Type) (l : list A) k v,
    nth_error l k = Some v -> skipn k l = v :: skipn (S k) l.
Proof.
  induction l as [|x l IH]; intros [|k] v H; cbn in *; try discriminate.
  - now injection H as ->.
  - now apply IH.
Qed.

Lemma fold_seq_items :
  forall (St : Type) (f : View -> St -> St) (l : list View) (lo : Z) (n j : nat)
         (s : St),
    (0 <= lo)%Z -> (Z.to_nat lo + j + n <= List.length l)%nat ->
    fold_left
      (fun acc k => match item l (lo + Z.of_nat k) with
                    | Some v => f v acc
                    | None => acc
                    end) (seq j n) s
    = fold_left (fun acc v => f v acc)
        (firstn n (skipn (Z.to_nat lo + j) l)) s.
Proof.
  intros St f l lo n. induction n as [|n IH]; intros j s Hlo Hn;
    [reflexivity|].
  cbn [seq fold_left].
  assert (Hitem : item l (lo + Z.of_nat j) = nth_error l (Z.to_nat lo + j)).
  { unfold item. destruct (lo + Z.of_nat j <? 0)%Z eqn:E; [lia|].
    f_equal. lia. }
  rewrite Hitem.
  destruct (nth_error l (Z.to_nat lo + j)) as [v|] eqn:Hv.
  - rewrite (skipn_nth_error _ _ _ _ Hv). cbn [firstn fold_left].
    replace (S (Z.to_nat lo + j)) with (Z.to_nat lo + S j)%nat by lia.
    apply IH; [exact Hlo|lia].
  - apply nth_error_None in Hv. lia.
Qed.

(** A counting loop over the items of an array is a fold over the
    corresponding segment. *)
Lemma for_range_items :
  forall (St : Type) (f : View -> St -> St) (l : list View) (lo hi : Z) (s : St),
    (0 <= lo)%Z -> (hi <= Z.of_nat (List.length l))%Z ->
    for_range lo hi
      (fun i acc => match item l i with
                    | Some v => f v acc
                    | None => acc
                    end) s
    = fold_left (fun acc v => f v acc)
        (firstn (Z.to_nat (hi - lo)) (skipn (Z.to_nat lo) l)) s.
Proof.
  intros St f l lo hi s Hlo Hhi. unfold for_range.
  destruct (Z.to_nat (hi - lo)) as [|n] eqn:En; [reflexivity|].
  rewrite fold_seq_items by lia.
  now rewrite Nat.add_0_r.
Qed.

Lemma relative_index_in :
  forall len k, (0 <= k <= len)%Z -> relative_index len k = k.
Proof.
  intros len k H. unfold relative_index.
  destruct (k <? 0)%Z eqn:E; lia.
Qed.

Lemma slice_prefix :
  forall (A : Type) (l : list A) k,
    (k <= List.length l)%nat -> slice 0 (Some (Z.of_nat k)) l = firstn k l.
Proof.
  intros A l k H. unfold slice.
  rewrite !relative_index_in by lia.
  rewrite Z.sub_0_r, Nat2Z.id. reflexivity.
Qed.

Lemma slice_suffix :
  forall (A : Type) (l : list A) k,
    (k <= List.length l)%nat -> slice (Z.of_nat k) None l = skipn k l.
Proof.
  intros A l k H. unfold slice.
  rewrite relative_index_in by lia. rewrite Nat2Z.id.
  apply firstn_all2. rewrite length_skipn. lia.
Qed.

Lemma index_from_app :
  forall X v Y i,
    (forall x, In x X -> vid x <> vid v) ->
    Views.index_from i (vid v) (X ++ v :: Y)
    = (i + Z.of_nat (List.length X))%Z.
Proof.
  induction X as [|x X IH]; intros v Y i H; cbn.
  - rewrite Nat.eqb_refl. lia.
  - destruct (Nat.eqb_spec (vid x) (vid v)) as [E|E].
    + exfalso. apply (H x); [now left|exact E].
    + rewrite IH; [lia|]. intros y Hy. apply H. now right.
Qed.

Lemma NoDup_vid_before :
  forall X v Y, NoDup (map vid (X ++ v :: Y)) ->
                forall x, In x X -> vid x <> vid v.
Proof.
  intros X v Y H x Hx E. rewrite map_app in H. cbn in H.
  apply NoDup_remove_2 in H. apply H. apply in_or_app. left.
  rewrite <- E. now apply in_map.
Qed.

Lemma remove_app :
  forall X v Y, (forall x, In x X -> vid x <> vid v) ->
                Views.remove (vid v) (X ++ v :: Y) = X ++ Y.
Proof.
  induction X as [|x X IH]; intros v Y H; cbn.
  - now rewrite Nat.eqb_refl.
  - destruct (Nat.eqb_spec (vid x) (vid v)) as [E|E].
    + exfalso. apply (H x); [now left|exact E].
    + f_equal. apply IH. intros y Hy. apply H. now right.
Qed.

Lemma remove_heads :
  forall P R,
    fold_left (fun ws v => Views.remove (vid v) ws) P (P ++ R) = R.
Proof.
  induction P as [|p P IH]; intros R; cbn; [reflexivity|].
  rewrite Nat.eqb_refl. apply IH.
Qed.

Lemma remove_tails :
  forall T Y, NoDup (map vid (Y ++ T)) ->
              fold_left (fun ws v => Views.remove (vid v) ws) T (Y ++ T) = Y.
Proof.
  induction T as [|t T IH]; intros Y H; cbn.
  - apply app_nil_r.
  - rewrite remove_app by (eapply NoDup_vid_before; exact H).
    apply IH. rewrite map_app in *. cbn in H.
    now apply NoDup_remove_1 in H.
Qed.

Lemma filter_hidden : forall A, Forall hidden A -> Views.displayed A = [].
Proof.
  induction A as [|a A IH]; intros H; [reflexivity|].
  inversion H as [|? ? Ha HA]; subst. unfold Views.displayed in *. cbn.
  unfold hidden in Ha. rewrite Ha. now apply IH.
Qed.

Lemma keep_last_length :
  forall (A : Type) (l : list A), (List.length (keep_last l) <= 1)%nat.
Proof. intros A l. unfold keep_last. rewrite length_skipn. lia. Qed.

Lemma keep_first_length :
  forall (A : Type) (l : list A), (List.length (keep_first l) <= 1)%nat.
Proof. intros A l. unfold keep_first. rewrite length_firstn. lia. Qed.

Lemma Forall_keep_last :
  forall A, Forall hidden A -> Forall hidden (keep_last A).
Proof.
  intros A H. unfold keep_last.
  rewrite <- (firstn_skipn (List.length A - 1) A) in H.
  now apply Forall_app in H.
Qed.

Lemma Forall_keep_first :
  forall B, Forall hidden B -> Forall hidden (keep_first B).
Proof.
  intros B H. unfold keep_first.
  rewrite <- (firstn_skipn 1 B) in H. now apply Forall_app in H.
Qed.

(** The window [trim] leaves, for a window given by its three parts. *)
Lemma trim_views_split :
  forall m A M e B,
    views m = A ++ (M ++ [e]) ++ B ->
    NoDup (map vid (views m)) ->
    Forall hidden A -> Forall hidden B -> displayed e = true ->
    (exists d M', M ++ [e] = d :: M' /\ displayed d = true) ->
    views (trim m) = keep_last A ++ (M ++ [e]) ++ keep_first B.
Proof.
  intros m A M e B Hws Hnd HA HB He (d & M' & HM & Hd).
  unfold trim.
  set (ws := views m) in *.
  (* the displayed views, the first and the last of them *)
  assert (Hdisp : Views.displayed ws = Views.displayed M ++ [e]).
  { rewrite Hws. unfold Views.displayed. rewrite !filter_app.
    fold (Views.displayed A). fold (Views.displayed B).
    rewrite (filter_hidden A HA), (filter_hidden B HB). cbn [filter app].
    rewrite He. now rewrite app_nil_r. }
  assert (Hfirst : item (Views.displayed ws) 0 = Some d).
  { rewrite Hws, HM. unfold Views.displayed. rewrite filter_app.
    fold (Views.displayed A). rewrite (filter_hidden A HA).
    cbn. now rewrite Hd. }
  assert (Hlast : item (Views.displayed ws)
                    (Z.of_nat (List.length (Views.displayed ws)) - 1)
                  = Some e).
  { rewrite Hdisp. rewrite length_app. cbn [List.length]. unfold item.
    destruct (Z.of_nat (List.length (Views.displayed M) + 1) - 1 <? 0)%Z eqn:E;
      [apply Z.ltb_lt in E; lia|].
    replace (Z.to_nat (Z.of_nat (List.length (Views.displayed M) + 1) - 1))
      with (List.length (Views.displayed M) + 0)%nat by lia.
    rewrite nth_error_app2 by lia.
    replace (List.length (Views.displayed M) + 0
             - List.length (Views.displayed M))%nat with 0%nat by lia.
    reflexivity. }
  rewrite Hfirst, Hlast.
  (* their positions in the window *)
  assert (HfirstIndex : Views.indexOf (Some d) ws = Z.of_nat (List.length A)).
  { assert (Hnd1 : NoDup (map vid (A ++ d :: M' ++ B))).
    { rewrite Hws, HM in Hnd. exact Hnd. }
    unfold Views.indexOf. rewrite Hws, HM. cbn [app].
    rewrite index_from_app; [lia|].
    eapply NoDup_vid_before. exact Hnd1. }
  assert (HlastIndex : Views.indexOf (Some e) ws
                       = Z.of_nat (List.length (A ++ M))).
  { assert (Hre : A ++ (M ++ [e]) ++ B = (A ++ M) ++ e :: B)
      by (rewrite <- !app_assoc; reflexivity).
    assert (Hnd2 : NoDup (map vid ((A ++ M) ++ e :: B))).
    { rewrite Hws, Hre in Hnd. exact Hnd. }
    unfold Views.indexOf. rewrite Hws, Hre.
    rewrite index_from_app; [lia|].
    eapply NoDup_vid_before. exact Hnd2. }
  rewrite HfirstIndex, HlastIndex.
  (* the copies above and below *)
  assert (Habove : slice 0 (Some (Z.of_nat (List.length A))) ws = A).
  { rewrite slice_prefix by (rewrite Hws, length_app; lia).
    rewrite Hws. rewrite firstn_app, firstn_all, Nat.sub_diag. cbn.
    apply app_nil_r. }
  assert (Hbelow : slice (Z.of_nat (List.length (A ++ M)) + 1) None ws = B).
  { replace (Z.of_nat (List.length (A ++ M)) + 1)%Z
      with (Z.of_nat (List.length (A ++ M ++ [e])))
      by (rewrite !length_app; cbn [List.length]; lia).
    rewrite slice_suffix by (rewrite Hws, !length_app; lia).
    rewrite Hws.
    replace (A ++ (M ++ [e]) ++ B) with ((A ++ M ++ [e]) ++ B)
      by (rewrite <- !app_assoc; reflexivity).
    rewrite skipn_app, skipn_all, Nat.sub_diag. reflexivity. }
  rewrite Habove, Hbelow.
  (* the two loops *)
  rewrite (for_range_items Manager (fun v acc => erase v true acc))
    by lia.
  rewrite (for_range_items Manager (fun v acc => erase v false acc))
    by lia.
  rewrite fold_erase_views, fold_erase_views.
  replace (Z.to_nat (Z.of_nat (List.length A) - 1 - 0))
    with (List.length A - 1)%nat by lia.
  replace (Z.to_nat (Z.of_nat (List.length B) - 1))
    with (List.length B - 1)%nat by lia.
  change (Z.to_nat 0) with 0%nat. change (Z.to_nat 1) with 1%nat.
  cbn [skipn].
  fold ws. rewrite Hws.
  assert (HAsplit : A = firstn (List.length A - 1) A ++ keep_last A)
    by (unfold keep_last; now rewrite firstn_skipn).
  replace (A ++ (M ++ [e]) ++ B)
    with (firstn (List.length A - 1) A ++ keep_last A ++ (M ++ [e]) ++ B)
    by (rewrite app_assoc, <- HAsplit; reflexivity).
  rewrite remove_heads.
  assert (Hnd' : NoDup (map vid (keep_last A ++ (M ++ [e]) ++ B))).
  { rewrite Hws in Hnd. rewrite HAsplit in Hnd.
    rewrite <- app_assoc, map_app in Hnd.
    now apply NoDup_app_remove_l in Hnd. }
  destruct B as [|b T].
  - cbn. reflexivity.
  - cbn [skipn List.length]. rewrite firstn_all2 by (cbn; lia).
    unfold keep_first. cbn [firstn].
    replace (keep_last A ++ (M ++ [e]) ++ b :: T)
      with ((keep_last A ++ (M ++ [e]) ++ [b]) ++ T) in *
      by (rewrite <- !app_assoc; reflexivity).
    now rewrite remove_tails.
Qed.

(** C3: after [trim()] on a window with at least one displayed view, what
    remains is the last of the views above the displayed range, the range
    itself and the first of the views below it: at most one view is left
    before the first displayed view and at most one after the last, and those
    are the views adjacent to the range. *)
Theorem trim_eviction_bound :
  forall m : Manager,
    NoDup (map vid (views m)) ->
    existsb (fun v => displayed v) (views m) = true ->
    views (trim m)
    = keep_last (leading (views m)) ++ shown_range (views m)
      ++ keep_first (trailing (views m)) /\
    leading (views (trim m)) = keep_last (leading (views m)) /\
    trailing (views (trim m)) = keep_first (trailing (views m)) /\
    shown_range (views (trim m)) = shown_range (views m) /\
    (List.length (leading (views (trim m))) <= 1)%nat /\
    (List.length (trailing (views (trim m))) <= 1)%nat.
Proof.
  intros m Hnd Hex.
  destruct (window_split (views m) Hex) as (A & M & e & B & Hws & HA & HB & He & Hd).
  pose proof (trim_views_split m A M e B Hws Hnd HA HB He Hd) as Ht.
  pose proof (shown_range_app A M e B HA HB He Hd) as (HL & HT & HS).
  pose proof (shown_range_app (keep_last A) M e (keep_first B)
                (Forall_keep_last A HA) (Forall_keep_first B HB) He Hd)
    as (HL' & HT' & HS').
  rewrite <- Hws in HL, HT, HS. rewrite <- Ht in HL', HT', HS'.
  rewrite HL, HT, HS, HL', HT', HS'.
  repeat split; try reflexivity.
  - exact Ht.
  - apply keep_last_length.
  - apply keep_first_length.
Qed.

Lemma trim_eviction_bound_witness :
  views (trim long_window)
  = [sample_view 2 2 false; sample_view 3 3 true; sample_view 4 4 false;
     sample_view 5 5 true; sample_view 6 6 false]
  /\ (List.length (leading (views (trim long_window))) <= 1)%nat
  /\ (List.length (trailing (views (trim long_window))) <= 1)%nat.
Proof.
  assert (Hnd : NoDup (map vid (views long_window))).
  { cbn. repeat constructor; cbn; intuition discriminate. }
  assert (Hex : existsb (fun v => displayed v) (views long_window) = true)
    by reflexivity.
  pose proof (trim_eviction_bound long_window Hnd Hex)
    as (H1 & _ & _ & _ & H2 & H3).
  split; [exact H1|split; [exact H2|exact H3]].
Defined.

(** ** The visibility pass *)

Lemma mutate_length :
  forall id f ws, List.length (mutate id f ws) = List.length ws.
Proof. intros. unfold mutate. apply length_map. Qed.

Lemma mutate_mutate :
  forall id f g ws,
    (forall v, vid (g v) = vid v) ->
    mutate id f (mutate id g ws) = mutate id (fun v => f (g v)) ws.
Proof.
  intros id f g ws Hg. unfold mutate. rewrite map_map.
  apply map_ext. intros v.
  destruct (Nat.eqb_spec (vid v) id) as [E|E].
  - rewrite Hg. apply Nat.eqb_eq in E. now rewrite E.
  - apply Nat.eqb_neq in E. now rewrite E.
Qed.

(** Mutating the views of a list [L] one after the other. *)
Lemma fold_mutate_map :
  forall f : View -> View,
    (forall v, vid (f v) = vid v) -> (forall v, f (f v) = f v) ->
    forall L ws,
      fold_left (fun acc x => mutate (vid x) f acc) L ws
      = map (fun v => if existsb (fun x => (vid v =? vid x)%nat) L
                      then f v else v) ws.
Proof.
  intros f Hid Hidem. induction L as [|x L IH]; intros ws; cbn [fold_left].
  - cbn. symmetry. apply map_id.
  - rewrite IH. unfold mutate. rewrite map_map. apply map_ext. intros v.
    cbn [existsb]. destruct (vid v =? vid x)%nat; cbn [orb].
    + rewrite Hid, Hidem. now destruct (existsb _ L).
    + reflexivity.
Qed.

Lemma vid_injective :
  forall ws x v, NoDup (map vid ws) -> In x ws -> In v ws ->
                 vid x = vid v -> x = v.
Proof.
  induction ws as [|w ws IH]; intros x v Hnd Hx Hv E; [contradiction|].
  cbn in Hnd. inversion Hnd as [|? ? Hnotin Hnd']; subst.
  destruct Hx as [Hx|Hx], Hv as [Hv|Hv]; subst.
  - reflexivity.
  - exfalso. apply Hnotin. rewrite E. now apply in_map.
  - exfalso. apply Hnotin. rewrite <- E. now apply in_map.
  - now apply IH.
Qed.

(** In a window without two views of the same identity, a view is among the
    selected ones exactly if it is selected itself. *)
Lemma existsb_filter_vid :
  forall (p : View -> bool) ws v,
    NoDup (map vid ws) -> In v ws ->
    existsb (fun x => (vid v =? vid x)%nat) (filter p ws) = p v.
Proof.
  intros p ws v Hnd Hv.
  destruct (p v) eqn:Hp.
  - apply existsb_exists. exists v. split; [|apply Nat.eqb_refl].
    apply filter_In. now split.
  - destruct (existsb _ (filter p ws)) eqn:E; [|reflexivity].
    apply existsb_exists in E. destruct E as (x & Hx & Hxv).
    apply filter_In in Hx. destruct Hx as (Hx & Hpx).
    apply Nat.eqb_eq in Hxv.
    rewrite (vid_injective ws x v Hnd Hx Hv (eq_sym Hxv)) in Hpx. congruence.
Qed.

Lemma clearTimeout_frame :
  forall h m,
    views (clearTimeout h m) = views m /\ q (clearTimeout h m) = q m /\
    settings (clearTimeout h m) = settings m /\
    next_timer (clearTimeout h m) = next_timer m.
Proof. intros [k|] m; repeat split; reflexivity. Qed.

Lemma last_default :
  forall (L : list View) w d d', List.last (w :: L) d = List.last (w :: L) d'.
Proof.
  induction L as [|x L IH]; intros w d d'; [reflexivity|].
  change (List.last (x :: L) d = List.last (x :: L) d'). apply IH.
Qed.

Lemma Views_last_cons :
  forall v L,
    Views.last (v :: L)
    = match Views.last L with Some x => Some x | None => Some v end.
Proof.
  intros v L. unfold Views.last. destruct L as [|w L]; [reflexivity|].
  f_equal. change (List.last (w :: L) v = List.last (w :: L) w).
  apply last_default.
Qed.

(** The loop of [update] in closed form, for any part [L] of the window and
    any state [st] it starts from. *)
Lemma update_fold :
  forall (isVisible : View -> Q -> Q -> bool) (o : Q) (L : list View)
         (st : Pass),
    let st' := fold_left (update_body isVisible o) L st in
    views (p_m st')
    = fold_left (fun acc x => mutate (vid x) (set_shown true) acc)
        (filter (fun v => isVisible v o o && displayed v) L)
        (views (p_m st)) /\
    p_promises st'
    = p_promises st
      ++ filter (fun v => isVisible v o o && negb (displayed v)) L /\
    q (p_m st')
    = q (p_m st)
      ++ map (fun v => TDestroy (vid v))
           (filter (fun v => negb (isVisible v o o)) L) /\
    p_view st'
    = match Views.last L with Some v => Some v | None => p_view st end /\
    settings (p_m st') = settings (p_m st).
Proof.
  intros isVisible o. induction L as [|v L IH]; intros st; cbn zeta.
  - cbn. rewrite !app_nil_r. repeat split; reflexivity.
  - cbn [fold_left]. specialize (IH (update_body isVisible o st v)).
    cbn zeta in IH. destruct IH as (Hv & Hp & Hq & Hl & Hs).
    rewrite Hv, Hp, Hq, Hl, Hs, Views_last_cons. clear Hv Hp Hq Hl Hs.
    unfold update_body. cbn [filter].
    destruct (isVisible v o o); cbn [andb negb].
    + destruct (displayed v); cbn [negb p_m p_promises p_view].
      * repeat split; try reflexivity. now destruct (Views.last L).
      * repeat split; try reflexivity.
        -- now rewrite <- app_assoc.
        -- now destruct (Views.last L).
    + cbn [p_m p_promises p_view].
      repeat split; try reflexivity.
      * cbn. now destruct (trimTimeout st.(p_m)).
      * cbn [map]. cbn.
        destruct (trimTimeout st.(p_m)); cbn; now rewrite <- app_assoc.
      * now destruct (Views.last L).
      * cbn. now destruct (trimTimeout st.(p_m)).
Qed.






Lemma settle_all_resolved :
  forall (display_ok : View -> bool) (cv : option View) (P : list View)
         (m : Manager),
    forallb display_ok P = true ->
    views (fold_left (settle_display display_ok cv) P m)
    = fold_left
        (fun acc x =>
           mutate (vid x) (fun v => set_shown true (set_displayed true v)) acc)
        P (views m) /\
    q (fold_left (settle_display display_ok cv) P m) = q m.
Proof.
  intros display_ok cv. induction P as [|x P IH]; intros m H; cbn.
  - split; reflexivity.
  - cbn in H. apply andb_prop in H. destruct H as (Hx & HP).
    destruct (IH (settle_display display_ok cv m x) HP) as (Hv & Hq).
    rewrite Hv, Hq. unfold settle_display. rewrite Hx.
    split; [|reflexivity].
    unfold view_show, view_displayed. cbn [views set_views].
    now rewrite mutate_mutate by reflexivity.
Qed.





(** C8 (defect): the rejection handler of [update] hides the view held by
    the variable [view] when it runs, which is the last view of the window,
    not the view whose display rejected.  In a window of two views in range,
    the first to be rendered and its display rejecting, the first view is
    left shown and the second one, displayed and in range, is hidden; the
    promise of [update] still resolves. *)
Theorem update_rejection_hides_last_view :
  (forall (isVisible : View -> Q -> Q -> bool) (o : option Q) (m : Manager),
     p_view (update_sync isVisible o m) = Views.last (views m)) /\
  (forall (w v : View) (m : Manager),
     settle_display (fun _ => false) (Some w) m v = view_hide w m) /\
  update (fun _ _ _ => true) (fun v => negb (vid v =? 0)%nat) None
    reject_window
  = (set_views [mkView 0 (mkSection 3 10) false true 100 1000;
                mkView 1 (mkSection 4 10) true false 100 1000]
       reject_window,
     RArray 1).
Proof.
  split; [|split].
  - intros isVisible o m. unfold update_sync.
    pose proof (update_fold isVisible
                  (match o with
                   | Some x => x
                   | None => or_else (offset (settings m)) 0
                   end) (views m) (mkPass m [] None)) as (_ & _ & _ & Hl & _).
    rewrite Hl. cbn [p_view]. now destruct (Views.last (views m)).
  - reflexivity.
  - reflexivity.
Qed.


(** ** Growth of the window: check and fill *)

Lemma last_map_section :
  forall (ws : list View) (d : View),
    List.last (map section ws) (section d) = section (List.last ws d).
Proof.
  induction ws as [|v ws IH]; intros d; [reflexivity|].
  destruct ws as [|w ws]; [reflexivity|].
  change (List.last (map section (w :: ws)) (section d)
          = section (List.last (w :: ws) d)). apply IH.
Qed.

Lemma remaining_sections :
  forall m, remaining m = remaining_of (map section (views m)).
Proof.
  intros m. unfold remaining, remaining_of, Views.first, Views.last.
  destruct (views m) as [|v ws]; [reflexivity|].
  cbn [hd_error map].
  change (section v :: map section ws) with (map section (v :: ws)).
  now rewrite last_map_section.
Qed.

Lemma remaining_ext :
  forall m m', map section (views m') = map section (views m) ->
               remaining m' = remaining m.
Proof. intros m m' H. now rewrite !remaining_sections, H. Qed.

Lemma mutate_sections :
  forall id f ws, (forall v, section (f v) = section v) ->
                  map section (mutate id f ws) = map section ws.
Proof.
  intros id f ws Hf. unfold mutate. rewrite map_map. apply map_ext.
  intros v. destruct (vid v =? id)%nat; [apply Hf|reflexivity].
Qed.

Lemma update_body_sections :
  forall isVisible o st v,
    map section (views (p_m (update_body isVisible o st v)))
    = map section (views (p_m st)).
Proof.
  intros isVisible o st v. unfold update_body.
  destruct (isVisible v o o).
  - destruct (displayed v); cbn [negb p_m]; [|reflexivity].
    unfold view_show. cbn [views set_views]. now apply mutate_sections.
  - cbn [p_m]. cbn. now destruct (trimTimeout (p_m st)).
Qed.

Lemma settle_display_sections :
  forall display_ok cv m v,
    map section (views (settle_display display_ok cv m v))
    = map section (views m).
Proof.
  intros display_ok cv m v. unfold settle_display.
  destruct (display_ok v).
  - unfold view_show, view_displayed. cbn [views set_views].
    now rewrite !mutate_sections.
  - destruct cv as [w|]; [|reflexivity].
    unfold view_hide. cbn [views set_views]. now apply mutate_sections.
Qed.

Lemma fold_sections :
  forall (St : Type) (proj : St -> list View) (step : St -> View -> St),
    (forall s v, map section (proj (step s v)) = map section (proj s)) ->
    forall L s, map section (proj (fold_left step L s)) = map section (proj s).
Proof.
  intros St proj step H. induction L as [|v L IH]; intros s; [reflexivity|].
  cbn [fold_left]. now rewrite IH, H.
Qed.

Lemma update_sections :
  forall isVisible display_ok o m,
    map section (views (fst (update isVisible display_ok o m)))
    = map section (views m).
Proof.
  intros isVisible display_ok o m. unfold update, update_settle.
  assert (Hs : map section (views (p_m (update_sync isVisible o m)))
               = map section (views m)).
  { unfold update_sync.
    rewrite (fold_sections Pass (fun st => views (p_m st))
               (update_body isVisible _)); [reflexivity|].
    intros s v. apply update_body_sections. }
  destruct (p_promises (update_sync isVisible o m)); cbn [fst]; [exact Hs|].
  rewrite (fold_sections Manager views (settle_display display_ok _));
    [exact Hs|].
  intros s0 v0. apply settle_display_sections.
Qed.

Lemma update_result :
  forall isVisible display_ok o m,
    snd (update isVisible display_ok o m) = RUndefined \/
    exists n, snd (update isVisible display_ok o m) = RArray (S n).
Proof.
  intros isVisible display_ok o m. unfold update, update_settle.
  destruct (p_promises (update_sync isVisible o m)) as [|x P];
    cbn [snd]; [now left|right].
  exists (List.length P). reflexivity.
Qed.

Lemma display_new_sections :
  forall display_ok nv m,
    map section (views (display_new display_ok nv m)) = map section (views m).
Proof.
  intros display_ok nv m. unfold display_new.
  apply (fold_sections Manager views
           (fun acc v => if display_ok v then view_displayed v acc else acc)).
  intros s v. destruct (display_ok v); [|reflexivity].
  unfold view_displayed. cbn [views set_views]. now apply mutate_sections.
Qed.

Lemma remaining_append :
  forall m m' v l,
    Views.last (views m) = Some l ->
    views m' = views m ++ [v] ->
    section_next (section l) = Some (section v) ->
    (remaining m' < remaining m)%nat.
Proof.
  intros m m' v l Hl Hv Hs. unfold remaining. rewrite Hv.
  destruct (views m) as [|v0 ws]; [discriminate|].
  assert (Hf' : Views.first ((v0 :: ws) ++ [v]) = Some v0) by reflexivity.
  assert (Hl' : Views.last ((v0 :: ws) ++ [v]) = Some v).
  { unfold Views.last. cbn [app]. f_equal.
    change (v0 :: ws ++ [v]) with ((v0 :: ws) ++ [v]). apply last_last. }
  rewrite Hf', Hl', Hl. change (Views.first (v0 :: ws)) with (Some v0).
  unfold section_next in Hs.
  destruct (S (index (section l)) <? spine_length (section l))%nat eqn:Elt;
    [|discriminate].
  injection Hs as Hs. rewrite <- Hs. apply Nat.ltb_lt in Elt.
  cbn [index spine_length]. lia.
Qed.

Lemma remaining_prepend :
  forall m m' v f,
    Views.first (views m) = Some f ->
    views m' = v :: views m ->
    section_prev (section f) = Some (section v) ->
    (remaining m' < remaining m)%nat.
Proof.
  intros m m' v f Hf Hv Hs. unfold remaining. rewrite Hv.
  destruct (views m) as [|v0 ws]; [discriminate|].
  rewrite Views_last_cons.
  change (Views.first (v :: v0 :: ws)) with (Some v).
  rewrite Hf.
  destruct (Views.last (v0 :: ws)) as [l|] eqn:El; [|discriminate].
  unfold section_prev in Hs.
  destruct (index (section f)) as [|i] eqn:Ei; [discriminate|].
  injection Hs as Hs. rewrite <- Hs. cbn [index]. lia.
Qed.

Lemma check_append_cases :
  forall m nv,
    check_append (m, nv) = (m, nv) \/
    exists m' v, check_append (m, nv) = (m', nv ++ [v]) /\
                 (remaining m' < remaining m)%nat.
Proof.
  intros m nv. unfold check_append.
  destruct (Views.last (views m)) as [l|] eqn:El; [|now left].
  destruct (section_next (section l)) as [s|] eqn:Es; [|now left].
  right. unfold append, createView.
  eexists. eexists. split; [reflexivity|].
  apply (remaining_append m _ (mkView (next_vid m) s false false 0 0) l El);
    [reflexivity|exact Es].
Qed.

Lemma check_prepend_cases :
  forall m nv,
    check_prepend (m, nv) = (m, nv) \/
    exists m' v, check_prepend (m, nv) = (m', nv ++ [v]) /\
                 (remaining m' < remaining m)%nat.
Proof.
  intros m nv. unfold check_prepend.
  destruct (Views.first (views m)) as [f|] eqn:Ef; [|now left].
  destruct (section_prev (section f)) as [s|] eqn:Es; [|now left].
  right. unfold prepend, createView.
  eexists. eexists. split; [reflexivity|].
  apply (remaining_prepend m _ (mkView (next_vid m) s false false 0 0) f Ef);
    [reflexivity|exact Es].
Qed.

Lemma check_grow_cases :
  forall m delta,
    check_grow m delta = (m, []) \/
    exists m' v nv, check_grow m delta = (m', v :: nv) /\
                    (remaining m' < remaining m)%nat.
Proof.
  intros m delta. unfold check_grow.
  destruct (geb _ _); destruct (ltb _ _).
  - destruct (check_append_cases m []) as [Ha|(m1 & v1 & Ha & Hr1)];
      rewrite Ha.
    + destruct (check_prepend_cases m []) as [Hp|(m2 & v2 & Hp & Hr2)];
        rewrite Hp; [now left|right].
      exists m2, v2, []. split; [reflexivity|exact Hr2].
    + right.
      destruct (check_prepend_cases m1 ([] ++ [v1]))
        as [Hp|(m2 & v2 & Hp & Hr2)]; rewrite Hp.
      * exists m1, v1, []. split; [reflexivity|exact Hr1].
      * exists m2, v1, [v2]. split; [reflexivity|lia].
  - destruct (check_append_cases m []) as [Ha|(m1 & v1 & Ha & Hr1)];
      rewrite Ha; [now left|right].
    exists m1, v1, []. split; [reflexivity|exact Hr1].
  - destruct (check_prepend_cases m []) as [Hp|(m2 & v2 & Hp & Hr2)];
      rewrite Hp; [now left|right].
    exists m2, v2, []. split; [reflexivity|exact Hr2].
  - now left.
Qed.




(** The promise chain of [check] runs to its end when the fuel exceeds the
    number of sections outside the window. *)
Lemma check_total :
  forall (isVisible : View -> Q -> Q -> bool) (display_ok : View -> bool)
         (world : nat -> Manager -> Manager),
    keeps_window world ->
    forall fuel t hl ht m,
      (remaining m < fuel)%nat ->
      exists m' r calls,
        check isVisible display_ok world fuel t hl ht m = Some (m', r, calls) /\
        (List.length calls <= remaining m + 1)%nat /\
        (remaining m' <= remaining m)%nat /\
        (truthy_result r = true -> (remaining m' < remaining m)%nat) /\
        ((forall v, display_ok v = true) ->
         exists gs, calls = gs ++ [0%nat] /\
                    Forall (fun g => (0 < g)%nat) gs) /\
        match snd (check_grow m (check_delta m hl ht)) with
        | [] => r = RBool false /\ m' = enqueue TUpdate m /\ calls = [0%nat]
        | _ :: _ =>
            r = RError \/ r = RUndefined \/ exists n, r = RArray (S n)
        end.
Proof.
  intros isVisible display_ok world Hw.
  induction fuel as [|fuel IH]; intros t hl ht m Hfuel; [lia|].
  cbn [check].
  destruct (check_grow_cases m (check_delta m hl ht))
    as [Hg|(m1 & v & nv & Hg & Hr)]; rewrite Hg; cbn [snd].
  - exists (enqueue TUpdate m), (RBool false), [0%nat].
    split; [reflexivity|]. split; [cbn [List.length]; lia|].
    split; [apply Nat.le_refl|]. split; [intros H; discriminate|].
    split; [|repeat split; reflexivity].
    intros _. exists []. split; [reflexivity|constructor].
  - set (m2 := display_new display_ok (v :: nv) m1).
    assert (Hr2 : remaining m2 = remaining m1)
      by (apply remaining_ext; apply display_new_sections).
    destruct (forallb display_ok (v :: nv)) eqn:Hok.
    + assert (Hr3 : remaining (world t m2) = remaining m2)
        by (apply remaining_ext; apply Hw).
      destruct (IH (S t) None None (world t m2)) as
        (m4 & r4 & c4 & Hc & Hlen & Hrem & _ & Hd & _); [lia|].
      rewrite Hc.
      destruct (update isVisible display_ok
                  (Some (check_delta m hl ht)) m4) as [m5 r5] eqn:Hu.
      assert (Hr5 : remaining m5 = remaining m4).
      { apply remaining_ext.
        pose proof (update_sections isVisible display_ok
                      (Some (check_delta m hl ht)) m4) as Hs.
        now rewrite Hu in Hs. }
      exists m5, r5, (List.length (v :: nv) :: c4).
      split; [reflexivity|]. split; [cbn [List.length]; lia|].
      split; [lia|]. split; [intros _; lia|]. split.
      * intros Hall. destruct (Hd Hall) as (gs & -> & Hgs).
        exists (List.length (v :: nv) :: gs). split; [reflexivity|].
        constructor; [cbn [List.length]; lia|exact Hgs].
      * pose proof (update_result isVisible display_ok
                      (Some (check_delta m hl ht)) m4) as Hres.
        rewrite Hu in Hres. cbn [snd] in Hres. right. exact Hres.
    + exists m2, RError, [List.length (v :: nv)].
      split; [reflexivity|]. split; [cbn [List.length]; lia|].
      split; [lia|]. split; [intros _; lia|]. split.
      * intros Hall. exfalso.
        assert (Ht : forallb display_ok (v :: nv) = true)
          by (apply forallb_forall; intros x _; apply Hall).
        congruence.
      * now left.
Qed.




Lemma update_sync_promises :
  forall isVisible _offset m,
    p_promises (update_sync isVisible _offset m)
    = to_render isVisible (update_margin _offset m) (views m).
Proof.
  intros isVisible _offset m. unfold update_sync, to_render.
  fold (update_margin _offset m).
  now destruct (update_fold isVisible (update_margin _offset m) (views m)
                  (mkPass m [] None)) as (_ & Hp & _).
Qed.

(** C6 (as the code has it): [check] resolves with [false] when it added no
    view, the visibility pass being handed to the queue and not run.  When it
    added views and the display of one of them rejects, it resolves with the
    rejection reason, and neither the nested [check] nor the visibility pass
    is run.  When all the displays resolve, the nested [check] is run first
    and the promise resolves with what [update(delta)], run on the state the
    nested [check] left, resolves with: undefined when no view in range was
    left to render, the array of the render results otherwise.  It never
    resolves with [true]. *)
Theorem check_resolves :
  forall (isVisible : View -> Q -> Q -> bool) (display_ok : View -> bool)
         (world : nat -> Manager -> Manager) (fuel t : nat)
         (hl ht : option Q) (m : Manager),
    keeps_window world ->
    (remaining m < fuel)%nat ->
    exists m' r calls,
      check isVisible display_ok world fuel t hl ht m = Some (m', r, calls) /\
      r <> RBool true /\
      let delta := check_delta m hl ht in
      let grown := fst (check_grow m delta) in
      let newViews := snd (check_grow m delta) in
      match newViews with
      | [] =>
          r = RBool false /\ m' = enqueue TUpdate m /\
          views m' = views m /\ q m' = q m ++ [TUpdate] /\
          calls = [0%nat]
      | _ :: _ =>
          if forallb display_ok newViews then
            exists m2 r2 calls2,
              check isVisible display_ok world (fuel - 1) (S t) None None
                (world t (display_new display_ok newViews grown))
              = Some (m2, r2, calls2) /\
              (m', r) = update isVisible display_ok (Some delta) m2 /\
              r = match to_render isVisible delta (views m2) with
                  | [] => RUndefined
                  | _ :: _ =>
                      RArray (List.length
                                (to_render isVisible delta (views m2)))
                  end /\
              calls = List.length newViews :: calls2
          else
            r = RError /\
            m' = display_new display_ok newViews grown /\
            calls = [List.length newViews]
      end.
Proof.
  intros isVisible display_ok world fuel t hl ht m Hw Hfuel.
  destruct fuel as [|fuel]; [lia|].
  cbv zeta. cbn [check]. rewrite Nat.sub_succ, Nat.sub_0_r.
  destruct (check_grow_cases m (check_delta m hl ht))
    as [Hg|(m1 & v & nv & Hg & Hr)]; rewrite Hg; cbn [fst snd].
  - exists (enqueue TUpdate m), (RBool false), [0%nat].
    split; [reflexivity|]. split; [discriminate|].
    repeat split; reflexivity.
  - set (m2 := display_new display_ok (v :: nv) m1).
    destruct (forallb display_ok (v :: nv)) eqn:Hok.
    + assert (Hrem : (remaining (world t m2) < fuel)%nat).
      { assert (H1 : remaining (world t m2) = remaining m2)
          by (apply remaining_ext; apply Hw).
        assert (H2 : remaining m2 = remaining m1)
          by (apply remaining_ext; apply display_new_sections).
        lia. }
      destruct (check_total isVisible display_ok world Hw fuel (S t) None None
                  (world t m2) Hrem) as (m4 & r4 & c4 & Hc & _).
      rewrite Hc.
      destruct (update isVisible display_ok (Some (check_delta m hl ht)) m4)
        as [m5 r5] eqn:Hu.
      assert (Hr5 : r5 = match to_render isVisible (check_delta m hl ht)
                                 (views m4) with
                         | [] => RUndefined
                         | _ :: _ =>
                             RArray (List.length
                                       (to_render isVisible
                                          (check_delta m hl ht) (views m4)))
                         end).
      { pose proof (f_equal snd Hu) as Hs. cbn [snd] in Hs. rewrite <- Hs.
        unfold update, update_settle.
        rewrite (update_sync_promises isVisible (Some (check_delta m hl ht)) m4).
        cbn [update_margin].
        destruct (to_render isVisible (check_delta m hl ht) (views m4));
          reflexivity. }
      exists m5, r5, (List.length (v :: nv) :: c4).
      split; [reflexivity|]. split.
      * rewrite Hr5.
        destruct (to_render isVisible (check_delta m hl ht) (views m4));
          discriminate.
      * exists m4, r4, c4. split; [reflexivity|].
        split; [symmetry; exact Hu|]. split; [exact Hr5|reflexivity].
    + exists m2, RError, [List.length (v :: nv)].
      split; [reflexivity|]. split; [discriminate|].
      repeat split; reflexivity.
Qed.

Lemma check_resolves_witness :
  (exists m' r calls,
     check in_range always still 3 0 None None short_document
     = Some (m', r, calls) /\
     r <> RBool true /\
     let delta := check_delta short_document None None in
     let grown := fst (check_grow short_document delta) in
     let newViews := snd (check_grow short_document delta) in
     match newViews with
     | [] =>
         r = RBool false /\ m' = enqueue TUpdate short_document /\
         views m' = views short_document /\
         q m' = q short_document ++ [TUpdate] /\
         calls = [0%nat]
     | _ :: _ =>
         if forallb always newViews then
           exists m2 r2 calls2,
             check in_range always still (3 - 1) 1 None None
               (still 0%nat (display_new always newViews grown))
             = Some (m2, r2, calls2) /\
             (m', r) = update in_range always (Some delta) m2 /\
             r = match to_render in_range delta (views m2) with
                 | [] => RUndefined
                 | _ :: _ =>
                     RArray (List.length (to_render in_range delta (views m2)))
                 end /\
             calls = List.length newViews :: calls2
         else
           r = RError /\
           m' = display_new always newViews grown /\
           calls = [List.length newViews]
     end) /\
  (exists m' r calls,
     check in_range never still 3 0 None None short_document
     = Some (m', r, calls) /\
     r <> RBool true /\
     let delta := check_delta short_document None None in
     let grown := fst (check_grow short_document delta) in
     let newViews := snd (check_grow short_document delta) in
     match newViews with
     | [] =>
         r = RBool false /\ m' = enqueue TUpdate short_document /\
         views m' = views short_document /\
         q m' = q short_document ++ [TUpdate] /\
         calls = [0%nat]
     | _ :: _ =>
         if forallb never newViews then
           exists m2 r2 calls2,
             check in_range never still (3 - 1) 1 None None
               (still 0%nat (display_new never newViews grown))
             = Some (m2, r2, calls2) /\
             (m', r) = update in_range never (Some delta) m2 /\
             r = match to_render in_range delta (views m2) with
                 | [] => RUndefined
                 | _ :: _ =>
                     RArray (List.length (to_render in_range delta (views m2)))
                 end /\
             calls = List.length newViews :: calls2
         else
           r = RError /\
           m' = display_new never newViews grown /\
           calls = [List.length newViews]
     end).
Proof.
  assert (Hw : keeps_window still) by (intros t m; reflexivity).
  assert (Hfuel : (remaining short_document < 3)%nat) by (cbn; lia).
  split.
  - exact (check_resolves in_range always still 3 0 None None short_document
             Hw Hfuel).
  - exact (check_resolves in_range never still 3 0 None None short_document
             Hw Hfuel).
Defined.

(** C6 as stated fails: [check] appends the second section of a document of
    two, so the window was grown, and resolves with [undefined], which is
    falsy, not with [true]. *)
Lemma check_resolves_counterexample :
  exists m',
    check in_range always still 3 0 None None short_document
    = Some (m', RUndefined, [1%nat; 0%nat]) /\
    List.length (views short_document) = 1%nat /\
    List.length (views m') = 2%nat /\
    truthy_result RUndefined = false /\
    RUndefined <> RBool true.
Proof.
  eexists. split; [vm_compute; reflexivity|].
  repeat split; discriminate.
Qed.


(** * Further properties of the manager *)

(** ** moveTo *)

Lemma ltb_lt : forall a b : Q, ltb a b = true <-> a < b.
Proof.
  intros a b. unfold ltb. rewrite negb_true_iff.
  split; intros H.
  - apply Qnot_le_lt. intros Hle. apply Qle_bool_iff in Hle. congruence.
  - destruct (Qle_bool b a) eqn:E; [|reflexivity].
    apply Qle_bool_iff in E. exfalso. exact (Qlt_not_le _ _ H E).
Qed.





(** ** erase *)

Lemma scrollTo_owner :
  forall x y m,
    owner_left (scrollTo x y m) = x /\ owner_top (scrollTo x y m) = y /\
    settings (scrollTo x y m) = settings m.
Proof.
  intros x y m. unfold owner_left, owner_top, scrollTo.
  destruct (fullsize (settings m)) eqn:Hf; cbn; rewrite Hf; repeat split.
Qed.

Lemma erase_above_vertical :
  forall view m,
    str_is (axis (settings m)) "vertical" = true ->
    owner_top (erase view true m) = owner_top m - height view /\
    settings (erase view true m) = settings m.
Proof.
  intros view m Hax. unfold erase. cbn [settings set_views]. rewrite Hax.
  destruct (scrollTo_owner 0
              ((if negb (fullsize (settings m))
                then container_scrollTop (dom m)
                else window_scrollY (dom m)) - height view)
              (set_views (Views.remove (vid view) (views m)) m))
    as (_ & Ht & Hs).
  rewrite Ht, Hs. split; reflexivity.
Qed.

(** ** trim: scroll compensation and the window without displayed view *)

Lemma erase_below_frame :
  forall v m, dom (erase v false m) = dom m /\
              settings (erase v false m) = settings m.
Proof. intros v m. split; reflexivity. Qed.

Lemma fold_erase_below_frame :
  forall L m,
    dom (fold_left (fun acc v => erase v false acc) L m) = dom m /\
    settings (fold_left (fun acc v => erase v false acc) L m) = settings m.
Proof.
  induction L as [|v L IH]; intros m; [split; reflexivity|].
  cbn [fold_left]. destruct (IH (erase v false m)) as (Hd & Hs).
  rewrite Hd, Hs. apply erase_below_frame.
Qed.

Lemma fold_erase_above_vertical :
  forall L m,
    str_is (axis (settings m)) "vertical" = true ->
    owner_top (fold_left (fun acc v => erase v true acc) L m)
    == owner_top m - total_height L /\
    settings (fold_left (fun acc v => erase v true acc) L m) = settings m.
Proof.
  induction L as [|v L IH]; intros m Hax; cbn [fold_left total_height fold_right].
  - split; [ring|reflexivity].
  - destruct (erase_above_vertical v m Hax) as (Ht & Hs).
    assert (Hax' : str_is (axis (settings (erase v true m))) "vertical" = true)
      by (rewrite Hs; exact Hax).
    destruct (IH (erase v true m) Hax') as (Ht' & Hs').
    split; [|now rewrite Hs', Hs].
    rewrite Ht', Ht. fold (total_height L). ring.
Qed.

(** [trim] as its two loops, for a window given by its three parts. *)
Lemma trim_loops_split :
  forall m A M e B,
    views m = A ++ (M ++ [e]) ++ B ->
    NoDup (map vid (views m)) ->
    Forall hidden A -> Forall hidden B -> displayed e = true ->
    (exists d M', M ++ [e] = d :: M' /\ displayed d = true) ->
    trim m
    = fold_left (fun acc v => erase v false acc)
        (firstn (List.length B - 1) (skipn 1 B))
        (fold_left (fun acc v => erase v true acc)
           (firstn (List.length A - 1) A) m).
Proof.
  intros m A M e B Hws Hnd HA HB He (d & M' & HM & Hd).
  unfold trim.
  set (ws := views m) in *.
  assert (Hdisp : Views.displayed ws = Views.displayed M ++ [e]).
  { rewrite Hws. unfold Views.displayed. rewrite !filter_app.
    fold (Views.displayed A). fold (Views.displayed B).
    rewrite (filter_hidden A HA), (filter_hidden B HB). cbn [filter app].
    rewrite He. now rewrite app_nil_r. }
  assert (Hfirst : item (Views.displayed ws) 0 = Some d).
  { rewrite Hws, HM. unfold Views.displayed. rewrite filter_app.
    fold (Views.displayed A). rewrite (filter_hidden A HA).
    cbn. now rewrite Hd. }
  assert (Hlast : item (Views.displayed ws)
                    (Z.of_nat (List.length (Views.displayed ws)) - 1)
                  = Some e).
  { rewrite Hdisp. rewrite length_app. cbn [List.length]. unfold item.
    destruct (Z.of_nat (List.length (Views.displayed M) + 1) - 1 <? 0)%Z eqn:E;
      [apply Z.ltb_lt in E; lia|].
    replace (Z.to_nat (Z.of_nat (List.length (Views.displayed M) + 1) - 1))
      with (List.length (Views.displayed M) + 0)%nat by lia.
    rewrite nth_error_app2 by lia.
    replace (List.length (Views.displayed M) + 0
             - List.length (Views.displayed M))%nat with 0%nat by lia.
    reflexivity. }
  rewrite Hfirst, Hlast.
  assert (HfirstIndex : Views.indexOf (Some d) ws = Z.of_nat (List.length A)).
  { assert (Hnd1 : NoDup (map vid (A ++ d :: M' ++ B))).
    { rewrite Hws, HM in Hnd. exact Hnd. }
    unfold Views.indexOf. rewrite Hws, HM. cbn [app].
    rewrite index_from_app; [lia|].
    eapply NoDup_vid_before. exact Hnd1. }
  assert (HlastIndex : Views.indexOf (Some e) ws
                       = Z.of_nat (List.length (A ++ M))).
  { assert (Hre : A ++ (M ++ [e]) ++ B = (A ++ M) ++ e :: B)
      by (rewrite <- !app_assoc; reflexivity).
    assert (Hnd2 : NoDup (map vid ((A ++ M) ++ e :: B))).
    { rewrite Hws, Hre in Hnd. exact Hnd. }
    unfold Views.indexOf. rewrite Hws, Hre.
    rewrite index_from_app; [lia|].
    eapply NoDup_vid_before. exact Hnd2. }
  rewrite HfirstIndex, HlastIndex.
  assert (Habove : slice 0 (Some (Z.of_nat (List.length A))) ws = A).
  { rewrite slice_prefix by (rewrite Hws, length_app; lia).
    rewrite Hws. rewrite firstn_app, firstn_all, Nat.sub_diag. cbn.
    apply app_nil_r. }
  assert (Hbelow : slice (Z.of_nat (List.length (A ++ M)) + 1) None ws = B).
  { replace (Z.of_nat (List.length (A ++ M)) + 1)%Z
      with (Z.of_nat (List.length (A ++ M ++ [e])))
      by (rewrite !length_app; cbn [List.length]; lia).
    rewrite slice_suffix by (rewrite Hws, !length_app; lia).
    rewrite Hws.
    replace (A ++ (M ++ [e]) ++ B) with ((A ++ M ++ [e]) ++ B)
      by (rewrite <- !app_assoc; reflexivity).
    rewrite skipn_app, skipn_all, Nat.sub_diag. reflexivity. }
  rewrite Habove, Hbelow.
  rewrite (for_range_items Manager (fun v acc => erase v true acc)) by lia.
  rewrite (for_range_items Manager (fun v acc => erase v false acc)) by lia.
  replace (Z.to_nat (Z.of_nat (List.length A) - 1 - 0))
    with (List.length A - 1)%nat by lia.
  replace (Z.to_nat (Z.of_nat (List.length B) - 1))
    with (List.length B - 1)%nat by lia.
  reflexivity.
Qed.

(** X5: on a vertical axis, [trim] on a window with a displayed view moves
    the scroll owner up by exactly the summed heights of the views it erases
    above the displayed range (all of them but the adjacent one); the views
    erased below contribute nothing, and when nothing is erased above the
    scroll position is not touched at all. *)
Theorem trim_compensation_vertical :
  forall m : Manager,
    NoDup (map vid (views m)) ->
    existsb (fun v => displayed v) (views m) = true ->
    str_is (axis (settings m)) "vertical" = true ->
    owner_top (trim m)
    == owner_top m
       - total_height (firstn (List.length (leading (views m)) - 1)
                         (leading (views m))) /\
    ((List.length (leading (views m)) <= 1)%nat -> dom (trim m) = dom m).
Proof.
  intros m Hnd Hex Hax.
  destruct (window_split (views m) Hex)
    as (A & M & e & B & Hws & HA & HB & He & Hd).
  pose proof (trim_loops_split m A M e B Hws Hnd HA HB He Hd) as Ht.
  pose proof (shown_range_app A M e B HA HB He Hd) as (HL & _ & _).
  rewrite <- Hws in HL. rewrite HL, Ht.
  set (m1 := fold_left (fun acc v => erase v true acc)
               (firstn (List.length A - 1) A) m).
  destruct (fold_erase_below_frame
              (firstn (List.length B - 1) (skipn 1 B)) m1) as (Hd2 & Hs2).
  destruct (fold_erase_above_vertical (firstn (List.length A - 1) A) m Hax)
    as (Ht1 & Hs1).
  fold m1 in Ht1, Hs1.
  split.
  - unfold owner_top in *. rewrite Hd2, Hs2. exact Ht1.
  - intros Hlen. rewrite Hd2. subst m1.
    replace (List.length A - 1)%nat with 0%nat by lia. reflexivity.
Qed.

Lemma trim_compensation_vertical_witness :
  owner_top (trim stacked_window) == 3500 - (1000 + (1000 + 0)) /\
  dom (trim vertical_window) = dom vertical_window.
Proof.
  assert (Hnd : NoDup (map vid (views stacked_window))).
  { cbn. repeat constructor; cbn; intuition discriminate. }
  assert (Hnd' : NoDup (map vid (views vertical_window))).
  { cbn. repeat constructor; cbn; intuition discriminate. }
  split.
  - exact (proj1 (trim_compensation_vertical stacked_window Hnd eq_refl
                    eq_refl)).
  - apply (proj2 (trim_compensation_vertical vertical_window Hnd' eq_refl
                    eq_refl)).
    cbn. lia.
Defined.

Lemma filter_all :
  forall (A : Type) (f : A -> bool) (l : list A),
    (forall x, In x l -> f x = true) -> filter f l = l.
Proof.
  induction l as [|a l IH]; intros H; [reflexivity|].
  cbn. rewrite (H a (or_introl eq_refl)). f_equal.
  apply IH. intros x Hx. apply H. now right.
Qed.

Lemma filter_none :
  forall (A : Type) (f : A -> bool) (l : list A),
    (forall x, In x l -> f x = false) -> filter f l = [].
Proof.
  induction l as [|a l IH]; intros H; [reflexivity|].
  cbn. rewrite (H a (or_introl eq_refl)).
  apply IH. intros x Hx. apply H. now right.
Qed.

Lemma NoDup_vid_filter :
  forall (f : View -> bool) ws,
    NoDup (map vid ws) -> NoDup (map vid (filter f ws)).
Proof.
  induction ws as [|v ws IH]; intros H; [constructor|].
  cbn in H. inversion H as [|? ? Hnotin Hnd]; subst. cbn.
  destruct (f v); [|now apply IH].
  cbn. constructor; [|now apply IH].
  intros Hin. apply Hnotin. apply in_map_iff in Hin.
  destruct Hin as (x & Hx & Hin). apply filter_In in Hin.
  rewrite <- Hx. apply in_map. exact (proj1 Hin).
Qed.

(** With distinct identities, [remove] takes out every view of the given
    identity. *)
Lemma remove_filter :
  forall id ws,
    NoDup (map vid ws) ->
    Views.remove id ws = filter (fun v => negb (vid v =? id)%nat) ws.
Proof.
  induction ws as [|v ws IH]; intros H; [reflexivity|].
  cbn in H. inversion H as [|? ? Hnotin Hnd]; subst. cbn.
  destruct (Nat.eqb_spec (vid v) id) as [E|E]; cbn.
  - symmetry. apply filter_all. intros x Hx.
    apply negb_true_iff. apply Nat.eqb_neq. intros Ex.
    apply Hnotin. rewrite E, <- Ex. now apply in_map.
  - f_equal. now apply IH.
Qed.

Lemma fold_remove_filter :
  forall L ws,
    NoDup (map vid ws) ->
    fold_left (fun acc v => Views.remove (vid v) acc) L ws
    = filter (fun v => negb (existsb (fun x => (vid v =? vid x)%nat) L)) ws.
Proof.
  induction L as [|x L IH]; intros ws H; cbn [fold_left existsb].
  - symmetry. apply filter_all. reflexivity.
  - rewrite remove_filter by exact H.
    rewrite IH by (apply NoDup_vid_filter; exact H).
    clear IH H. induction ws as [|v ws IHws]; [reflexivity|].
    cbn [filter]. destruct (vid v =? vid x)%nat eqn:E; cbn [negb orb].
    + exact IHws.
    + cbn [filter]. destruct (existsb _ L); cbn [negb]; now rewrite IHws.
Qed.

(** [trim] as its two loops when no view is displayed. *)
Lemma trim_loops_nothing_displayed :
  forall m,
    existsb (fun v => displayed v) (views m) = false ->
    trim m
    = fold_left (fun acc v => erase v false acc) (skipn 1 (views m))
        (fold_left (fun acc v => erase v true acc)
           (firstn (List.length (views m) - 2) (views m)) m).
Proof.
  intros m Hex. unfold trim.
  assert (Hd : Views.displayed (views m) = []).
  { unfold Views.displayed. induction (views m) as [|v ws IH];
      [reflexivity|]. cbn in *. apply orb_false_iff in Hex.
    destruct Hex as (Hv & Hws). rewrite Hv. now apply IH. }
  rewrite Hd. cbn [item List.length Z.of_nat].
  change (item [] (0 - 1)) with (@None View).
  change (item (@nil View) 0) with (@None View).
  cbn [Views.indexOf].
  set (ws := views m).
  assert (Ha : slice 0 (Some (-1)%Z) ws = firstn (List.length ws - 1) ws).
  { unfold slice, relative_index. cbn [Z.ltb Z.compare].
    rewrite Z.min_l by lia. cbn [Z.to_nat skipn].
    f_equal. lia. }
  assert (Hb : slice (-1 + 1) None ws = ws).
  { change (-1 + 1)%Z with (Z.of_nat 0). rewrite slice_suffix by lia.
    reflexivity. }
  rewrite Ha, Hb.
  rewrite (for_range_items Manager (fun v acc => erase v true acc))
    by (rewrite ?length_firstn; lia).
  rewrite (for_range_items Manager (fun v acc => erase v false acc)) by lia.
  cbn [Z.to_nat skipn].
  rewrite length_firstn.
  replace (Z.to_nat (Z.of_nat (Nat.min (List.length ws - 1) (List.length ws))
                     - 1 - 0))
    with (List.length ws - 2)%nat by lia.
  rewrite firstn_firstn.
  replace (Nat.min (List.length ws - 2) (List.length ws - 1))
    with (List.length ws - 2)%nat by lia.
  replace (Z.to_nat (Z.of_nat (List.length ws) - 1))
    with (List.length ws - 1)%nat by lia.
  change (Pos.to_nat 1) with 1%nat.
  rewrite (firstn_all2 (n := List.length ws - 1))
    by (rewrite length_skipn; lia).
  reflexivity.
Qed.

(** X6: when no view of the window is displayed, [trim] keeps no buffer on
    either side.  For a window of at most three views, in which the two loops
    of [trim] erase no view twice: a window of three views is emptied
    altogether, and a shorter window is cut down to its first view. *)
Theorem trim_nothing_displayed :
  forall m : Manager,
    NoDup (map vid (views m)) ->
    existsb (fun v => displayed v) (views m) = false ->
    (List.length (views m) <= 3)%nat ->
    views (trim m)
    = if (List.length (views m) =? 3)%nat then []
      else keep_first (views m).
Proof.
  intros m Hnd Hex Hlen.
  rewrite (trim_loops_nothing_displayed m Hex).
  rewrite !fold_erase_views.
  set (ws := views m) in *.
  rewrite (fold_remove_filter (firstn (List.length ws - 2) ws) ws Hnd).
  rewrite fold_remove_filter by (apply NoDup_vid_filter; exact Hnd).
  destruct ws as [|v0 ws']; [reflexivity|].
  cbn [skipn List.length] in *.
  assert (Htail : forall x, In x ws' ->
                    existsb (fun y => (vid x =? vid y)%nat) ws' = true).
  { intros x Hx. apply existsb_exists. exists x.
    split; [exact Hx|apply Nat.eqb_refl]. }
  assert (Hhead : existsb (fun y => (vid v0 =? vid y)%nat) ws' = false).
  { destruct (existsb _ ws') eqn:E; [|reflexivity].
    apply existsb_exists in E. destruct E as (y & Hy & Ey).
    apply Nat.eqb_eq in Ey. cbn in Hnd.
    inversion Hnd as [|? ? Hnotin _]; subst.
    exfalso. apply Hnotin. rewrite Ey. now apply in_map. }
  destruct (Nat.eqb_spec (S (List.length ws')) 3) as [E3|E3].
  - replace (S (List.length ws') - 2)%nat with (S (List.length ws' - 2))
      by lia.
    cbn [firstn filter existsb]. rewrite Nat.eqb_refl. cbn [orb negb].
    apply filter_none. intros x Hx. apply filter_In in Hx.
    destruct Hx as (Hx & _). now rewrite (Htail x Hx).
  - replace (S (List.length ws') - 2)%nat with 0%nat by lia.
    cbn [firstn existsb negb].
    rewrite (filter_all View (fun _ => true) (v0 :: ws')) by reflexivity.
    cbn [filter]. rewrite Hhead. cbn [negb]. unfold keep_first.
    cbn [firstn]. f_equal.
    apply filter_none. intros x Hx. now rewrite (Htail x Hx).
Qed.

Lemma trim_nothing_displayed_witness :
  views (trim hidden_window) = [] /\
  views (trim (set_views [sample_view 0 2 false; sample_view 1 3 false]
                 hidden_window)) = [sample_view 0 2 false].
Proof.
  split.
  - apply (trim_nothing_displayed hidden_window);
      [|reflexivity|cbn; lia].
    cbn. repeat constructor; cbn; intuition discriminate.
  - apply (trim_nothing_displayed
             (set_views [sample_view 0 2 false; sample_view 1 3 false]
                hidden_window)); [|reflexivity|cbn; lia].
    cbn. repeat constructor; cbn; intuition discriminate.
Defined.


(** ** check: the window stays a contiguous run of sections *)

Lemma Views_last_inv :
  forall ws l, Views.last ws = Some l -> exists ws0, ws = ws0 ++ [l].
Proof.
  intros ws l H. destruct ws as [|v ws]; [discriminate|].
  destruct (exists_last (l := v :: ws)) as (ws0 & a & E); [discriminate|].
  exists ws0. rewrite E in H |- *. unfold Views.last in H.
  destruct (ws0 ++ [a]) as [|x r] eqn:Ex.
  - destruct ws0; discriminate.
  - rewrite <- Ex in H. rewrite last_last in H. now injection H as ->.
Qed.

Lemma consecutive_last :
  forall ws l i N,
    Views.last ws = Some l ->
    map section ws = map (fun k => mkSection k N) (seq i (List.length ws)) ->
    section l = mkSection (i + List.length ws - 1) N.
Proof.
  intros ws l i N Hl Hs. destruct (Views_last_inv ws l Hl) as (ws0 & ->).
  rewrite length_app in *. cbn [List.length] in *.
  rewrite Nat.add_1_r in *. rewrite seq_S, !map_app in Hs. cbn [map] in Hs.
  apply app_inj_tail in Hs. destruct Hs as (_ & Hs). rewrite Hs.
  f_equal. lia.
Qed.

Lemma check_append_contiguous :
  forall m nv,
    consecutive (window_sections m) ->
    exists post,
      views (fst (check_append (m, nv))) = views m ++ post /\
      snd (check_append (m, nv)) = nv ++ post /\
      (List.length post <= 1)%nat /\
      consecutive (window_sections (fst (check_append (m, nv)))).
Proof.
  intros m nv Hc. unfold check_append.
  destruct (Views.last (views m)) as [l|] eqn:El;
    [|exists []; cbn [fst snd]; rewrite !app_nil_r; repeat split;
      [cbn; lia|exact Hc]].
  destruct (section_next (section l)) as [s|] eqn:Es;
    [|exists []; cbn [fst snd]; rewrite !app_nil_r; repeat split;
      [cbn; lia|exact Hc]].
  unfold append, createView. cbn [fst snd views set_views set_next_vid].
  exists [mkView (next_vid m) s false false 0 0].
  split; [reflexivity|]. split; [reflexivity|]. split; [cbn; lia|].
  destruct Hc as (i & N & Hs & Hb). unfold window_sections in *.
  rewrite length_map in Hs, Hb.
  pose proof (consecutive_last (views m) l i N El Hs) as Hl.
  unfold section_next in Es. rewrite Hl in Es. cbn [index spine_length] in Es.
  destruct (S (i + List.length (views m) - 1) <? N)%nat eqn:Elt;
    [|discriminate].
  apply Nat.ltb_lt in Elt. injection Es as <-.
  assert (Hpos : (0 < List.length (views m))%nat).
  { destruct (views m); [discriminate|cbn; lia]. }
  exists i, N. cbn [views set_views]. unfold Views.append.
  rewrite length_map, length_app, map_app. cbn [List.length map section].
  rewrite Nat.add_1_r, seq_S, map_app, <- Hs. cbn [map].
  split; [|lia]. do 3 f_equal. lia.
Qed.

Lemma check_prepend_contiguous :
  forall m nv,
    consecutive (window_sections m) ->
    exists pre,
      views (fst (check_prepend (m, nv))) = pre ++ views m /\
      snd (check_prepend (m, nv)) = nv ++ pre /\
      (List.length pre <= 1)%nat /\
      consecutive (window_sections (fst (check_prepend (m, nv)))).
Proof.
  intros m nv Hc. unfold check_prepend.
  destruct (Views.first (views m)) as [f|] eqn:Ef;
    [|exists []; cbn [fst snd app]; rewrite !app_nil_r; repeat split;
      [cbn; lia|exact Hc]].
  destruct (section_prev (section f)) as [s|] eqn:Es;
    [|exists []; cbn [fst snd app]; rewrite !app_nil_r; repeat split;
      [cbn; lia|exact Hc]].
  unfold prepend, createView. cbn [fst snd views set_views set_next_vid].
  exists [mkView (next_vid m) s false false 0 0].
  split; [reflexivity|]. split; [reflexivity|]. split; [cbn; lia|].
  destruct Hc as (i & N & Hs & Hb). unfold window_sections in *.
  rewrite length_map in Hs, Hb.
  unfold Views.first in Ef. destruct (views m) as [|v0 ws] eqn:Ev;
    [discriminate|]. cbn in Ef. injection Ef as ->.
  cbn [List.length seq map] in Hs. injection Hs as Hf Hrest.
  unfold section_prev in Es. rewrite Hf in Es. cbn [index spine_length] in Es.
  destruct i as [|i']; [discriminate|]. injection Es as <-.
  exists i', N. cbn [views set_views]. unfold Views.prepend.
  rewrite length_map. cbn [List.length map section seq].
  rewrite Hf, Hrest. split; [reflexivity|]. cbn [List.length] in Hb. lia.
Qed.

Lemma check_grow_consecutive :
  forall (m : Manager) (delta : Q),
    consecutive (window_sections m) ->
    consecutive (window_sections (fst (check_grow m delta))).
Proof.
  intros m delta Hc. unfold check_grow.
  destruct (geb _ _); destruct (ltb _ _); cbn [fst]; try exact Hc.
  - destruct (check_append_contiguous m [] Hc) as (post & _ & _ & _ & Hc1).
    destruct (check_append (m, [])) as [m1 nv1]. cbn [fst] in Hc1.
    destruct (check_prepend_contiguous m1 nv1 Hc1) as (pre & _ & _ & _ & Hc2).
    exact Hc2.
  - destruct (check_append_contiguous m [] Hc) as (post & _ & _ & _ & Hc1).
    exact Hc1.
  - destruct (check_prepend_contiguous m [] Hc) as (pre & _ & _ & _ & Hc1).
    exact Hc1.
Qed.

(** X7: one round of growth of [check] adds at most one view at the end of
    the window and at most one at its beginning, and a window that is a
    gap-free run of sections of the document in document order stays one. *)
Theorem check_grow_contiguous :
  forall (m : Manager) (delta : Q),
    consecutive (window_sections m) ->
    consecutive (window_sections (fst (check_grow m delta))) /\
    exists pre post,
      views (fst (check_grow m delta)) = pre ++ views m ++ post /\
      snd (check_grow m delta) = post ++ pre /\
      (List.length pre <= 1)%nat /\ (List.length post <= 1)%nat.
Proof.
  intros m delta Hc. unfold check_grow.
  destruct (geb _ _); destruct (ltb _ _).
  - destruct (check_append_contiguous m [] Hc) as (post & Hv & Hn & Hl & Hc1).
    destruct (check_append (m, [])) as [m1 nv1]. cbn [fst snd] in *.
    destruct (check_prepend_contiguous m1 nv1 Hc1)
      as (pre & Hv2 & Hn2 & Hl2 & Hc2).
    split; [exact Hc2|]. exists pre, post.
    rewrite Hv2, Hn2, Hv, Hn. repeat split; assumption.
  - destruct (check_append_contiguous m [] Hc) as (post & Hv & Hn & Hl & Hc1).
    split; [exact Hc1|]. exists [], post.
    rewrite Hv, Hn, app_nil_r. repeat split; [cbn; lia|exact Hl].
  - destruct (check_prepend_contiguous m [] Hc) as (pre & Hv & Hn & Hl & Hc1).
    split; [exact Hc1|]. exists pre, [].
    rewrite Hv, Hn, app_nil_r. repeat split; [exact Hl|cbn; lia].
  - split; [exact Hc|]. exists [], []. cbn [fst snd app].
    rewrite app_nil_r. repeat split; cbn; lia.
Qed.

Lemma check_grow_contiguous_witness :
  consecutive (window_sections (fst (check_grow ten_sections 500))) /\
  exists pre post,
    views (fst (check_grow ten_sections 500))
    = pre ++ views ten_sections ++ post /\
    snd (check_grow ten_sections 500) = post ++ pre /\
    (List.length pre <= 1)%nat /\ (List.length post <= 1)%nat.
Proof.
  apply (check_grow_contiguous ten_sections 500).
  exists 3%nat, 10%nat. split; [reflexivity|cbn; lia].
Defined.

Lemma check_sections_invariant :
  forall (P : list Section -> Prop)
         (isVisible : View -> Q -> Q -> bool) (display_ok : View -> bool)
         (world : nat -> Manager -> Manager),
    (forall m delta, P (window_sections m) ->
                     P (window_sections (fst (check_grow m delta)))) ->
    keeps_window world ->
    forall fuel t hl ht m m' r calls,
      check isVisible display_ok world fuel t hl ht m = Some (m', r, calls) ->
      P (window_sections m) -> P (window_sections m').
Proof.
  intros P isVisible display_ok world Hgrow Hw.
  induction fuel as [|fuel IH]; intros t hl ht m m' r calls Hc HP;
    [discriminate|].
  cbn [check] in Hc.
  specialize (Hgrow m (check_delta m hl ht) HP).
  destruct (check_grow m (check_delta m hl ht)) as [m1 nv]. cbn [fst] in Hgrow.
  destruct nv as [|v nv].
  - injection Hc as <- _ _. exact Hgrow.
  - assert (H2 : P (window_sections (display_new display_ok (v :: nv) m1))).
    { unfold window_sections. rewrite display_new_sections. exact Hgrow. }
    destruct (forallb display_ok (v :: nv)).
    + assert (H3 : P (window_sections
                        (world t (display_new display_ok (v :: nv) m1)))).
      { unfold window_sections. rewrite Hw. exact H2. }
      destruct (check isVisible display_ok world fuel (S t) None None
                  (world t (display_new display_ok (v :: nv) m1)))
        as [[[m4 r4] c4]|] eqn:Hrec; [|discriminate].
      specialize (IH _ _ _ _ _ _ _ Hrec H3).
      destruct (update isVisible display_ok (Some (check_delta m hl ht)) m4)
        as [m5 r5] eqn:Hu.
      injection Hc as <- _ _.
      pose proof (update_sections isVisible display_ok
                    (Some (check_delta m hl ht)) m4) as Hs.
      rewrite Hu in Hs. cbn [fst] in Hs.
      unfold window_sections. rewrite Hs. exact IH.
    + injection Hc as <- _ _. exact H2.
Qed.

Lemma NoDup_map_injective :
  forall (A B : Type) (f : A -> B) (l : list A),
    (forall a b, f a = f b -> a = b) -> NoDup l -> NoDup (map f l).
Proof.
  intros A B f l Hinj. induction l as [|a l IH]; intros H; [constructor|].
  inversion H as [|? ? Hnotin Hnd]; subst. cbn. constructor; [|now apply IH].
  intros Hin. apply in_map_iff in Hin. destruct Hin as (b & Hb & Hin).
  apply Hinj in Hb. subst b. contradiction.
Qed.

Lemma consecutive_NoDup : forall ss, consecutive ss -> NoDup ss.
Proof.
  intros ss (i & N & Hs & _). rewrite Hs.
  apply NoDup_map_injective; [|apply seq_NoDup].
  intros a b E. now injection E.
Qed.

(** X8: the whole promise chain of [check] keeps the contiguity invariant:
    started on a window that is a gap-free run of sections, in a world that
    evicts nothing, it ends on a window that is again a gap-free run in
    document order, without duplicate section. *)
Theorem check_keeps_contiguous :
  forall (isVisible : View -> Q -> Q -> bool) (display_ok : View -> bool)
         (world : nat -> Manager -> Manager) (fuel t : nat)
         (hl ht : option Q) (m : Manager),
    keeps_window world ->
    (remaining m < fuel)%nat ->
    consecutive (window_sections m) ->
    exists m' r calls,
      check isVisible display_ok world fuel t hl ht m = Some (m', r, calls) /\
      consecutive (window_sections m') /\
      NoDup (window_sections m').
Proof.
  intros isVisible display_ok world fuel t hl ht m Hw Hfuel Hc.
  destruct (check_total isVisible display_ok world Hw fuel t hl ht m Hfuel)
    as (m' & r & calls & Hch & _).
  exists m', r, calls. split; [exact Hch|].
  assert (Hc' : consecutive (window_sections m')).
  { apply (check_sections_invariant consecutive isVisible display_ok world
             check_grow_consecutive Hw
             fuel t hl ht m m' r calls Hch Hc). }
  split; [exact Hc'|now apply consecutive_NoDup].
Qed.

Lemma check_keeps_contiguous_witness :
  exists m' r calls,
    check in_range always still 10 0 None None ten_sections
    = Some (m', r, calls) /\
    consecutive (window_sections m') /\ NoDup (window_sections m').
Proof.
  apply (check_keeps_contiguous in_range always still 10 0 None None
           ten_sections).
  - intros t m. reflexivity.
  - cbn. lia.
  - exists 3%nat, 10%nat. split; [reflexivity|cbn; lia].
Defined.


(** ** update: what it leaves alone, what it resolves with, idempotence *)

Lemma fold_left_frame :
  forall (St X A : Type) (proj : St -> X) (step : St -> A -> St),
    (forall s a, proj (step s a) = proj s) ->
    forall L s, proj (fold_left step L s) = proj s.
Proof.
  intros St X A proj step H. induction L as [|a L IH]; intros s;
    [reflexivity|].
  cbn [fold_left]. now rewrite IH, H.
Qed.

Lemma mutate_proj :
  forall (X : Type) (g : View -> X) id f ws,
    (forall v, g (f v) = g v) -> map g (mutate id f ws) = map g ws.
Proof.
  intros X g id f ws Hf. unfold mutate. rewrite map_map. apply map_ext.
  intros v. destruct (vid v =? id)%nat; [apply Hf|reflexivity].
Qed.

Lemma update_body_frame :
  forall isVisible o st v,
    pass_frame (p_m (update_body isVisible o st v)) = pass_frame (p_m st).
Proof.
  intros isVisible o st v. unfold update_body.
  destruct (isVisible v o o).
  - destruct (displayed v); cbn [negb p_m]; [|reflexivity].
    unfold pass_frame, view_show. cbn [views set_views settings].
    now rewrite mutate_proj.
  - cbn [p_m]. unfold pass_frame. cbn.
    now destruct (trimTimeout (p_m st)).
Qed.

Lemma settle_display_frame :
  forall display_ok cv m v,
    pass_frame (settle_display display_ok cv m v) = pass_frame m.
Proof.
  intros display_ok cv m v. unfold settle_display.
  destruct (display_ok v).
  - unfold pass_frame, view_show, view_displayed.
    cbn [views set_views settings].
    now rewrite !mutate_proj.
  - destruct cv as [w|]; [|reflexivity].
    unfold pass_frame, view_hide.
    cbn [views set_views settings].
    now rewrite mutate_proj.
Qed.

Lemma update_pass_frame :
  forall isVisible display_ok _offset m,
    pass_frame (fst (update isVisible display_ok _offset m)) = pass_frame m.
Proof.
  intros isVisible display_ok _offset m.
  unfold update, update_settle.
  assert (Hs : pass_frame (p_m (update_sync isVisible _offset m))
               = pass_frame m).
  { unfold update_sync.
    apply (fold_left_frame Pass _ View (fun st => pass_frame (p_m st))
             (update_body isVisible _)).
    intros s a. apply update_body_frame. }
  destruct (p_promises (update_sync isVisible _offset m)); cbn [fst];
    [exact Hs|].
  rewrite (fold_left_frame Manager _ View pass_frame
             (settle_display display_ok _)); [exact Hs|].
  intros s a. apply settle_display_frame.
Qed.

Lemma update_keeps_ids :
  forall isVisible display_ok _offset m,
    map vid (views (fst (update isVisible display_ok _offset m)))
    = map vid (views m) /\
    settings (fst (update isVisible display_ok _offset m)) = settings m.
Proof.
  intros isVisible display_ok _offset m.
  pose proof (update_pass_frame isVisible display_ok _offset m) as Hf.
  unfold pass_frame in Hf.
  injection Hf as Hviews Hset.
  split; [|exact Hset].
  apply (f_equal (map (fun x : nat * Section => fst x))) in Hviews.
  now rewrite !map_map in Hviews.
Qed.

(** X9: [update] itself never evicts or adds a view, whatever the visibility
    test and whether its displays resolve or reject: after the pass and the
    settlement of its displays, the window holds the same views, in the same
    order and for the same sections, as before; a view out of range is still
    in it, its destroy being only handed to the queue. *)
Theorem update_keeps_window :
  forall (isVisible : View -> Q -> Q -> bool) (display_ok : View -> bool)
         (_offset : option Q) (m : Manager),
    map vid (views (fst (update isVisible display_ok _offset m)))
    = map vid (views m) /\
    map section (views (fst (update isVisible display_ok _offset m)))
    = map section (views m).
Proof.
  intros isVisible display_ok _offset m.
  pose proof (update_pass_frame isVisible display_ok _offset m) as Hf.
  unfold pass_frame in Hf.
  injection Hf as Hviews _.
  split.
  - apply (f_equal (map (fun x : nat * Section => fst x))) in Hviews.
    now rewrite !map_map in Hviews.
  - apply (f_equal (map (fun x : nat * Section => snd x))) in Hviews.
    now rewrite !map_map in Hviews.
Qed.

(** X10: the promise of [update] never rejects and never carries an error,
    whether its displays resolve or reject: it resolves with undefined when
    the pass started no display, and otherwise with an array of one entry
    per view that was in range and not displayed. *)
Theorem update_resolves_with :
  forall (isVisible : View -> Q -> Q -> bool) (display_ok : View -> bool)
         (_offset : option Q) (m : Manager),
    snd (update isVisible display_ok _offset m)
    = match to_render isVisible (update_margin _offset m) (views m) with
      | [] => RUndefined
      | _ :: _ =>
          RArray (List.length
                    (to_render isVisible (update_margin _offset m) (views m)))
      end.
Proof.
  intros isVisible display_ok _offset m. unfold update, update_settle.
  rewrite update_sync_promises.
  now destruct (to_render isVisible (update_margin _offset m) (views m)).
Qed.

Lemma update_sync_views :
  forall isVisible _offset m,
    NoDup (map vid (views m)) ->
    views (p_m (update_sync isVisible _offset m))
    = map (fun v => if isVisible v (update_margin _offset m)
                         (update_margin _offset m) && displayed v
                    then set_shown true v else v) (views m).
Proof.
  intros isVisible _offset m Hnd. unfold update_sync.
  fold (update_margin _offset m).
  destruct (update_fold isVisible (update_margin _offset m) (views m)
              (mkPass m [] None)) as (Hv & _).
  cbn zeta in Hv. cbn [p_m] in Hv. rewrite Hv.
  rewrite fold_mutate_map by reflexivity.
  apply map_ext_in. intros v Hin.
  now rewrite (existsb_filter_vid
                 (fun v => isVisible v (update_margin _offset m)
                             (update_margin _offset m) && displayed v)
                 (views m) v Hnd Hin).
Qed.

Lemma update_views_resolved :
  forall isVisible display_ok _offset m,
    NoDup (map vid (views m)) ->
    forallb display_ok (to_render isVisible (update_margin _offset m) (views m))
    = true ->
    views (fst (update isVisible display_ok _offset m))
    = map (fun v => if isVisible v (update_margin _offset m)
                         (update_margin _offset m)
                    then set_shown true (set_displayed true v) else v)
        (views m).
Proof.
  intros isVisible display_ok _offset m Hnd Hok.
  set (o := update_margin _offset m) in *.
  pose proof (update_sync_promises isVisible _offset m) as Hp. fold o in Hp.
  pose proof (update_sync_views isVisible _offset m Hnd) as Hv. fold o in Hv.
  unfold update, update_settle.
  destruct (p_promises (update_sync isVisible _offset m)) as [|x P] eqn:EP.
  - cbn [fst]. rewrite Hv. apply map_ext_in. intros v Hin.
    destruct (isVisible v o o) eqn:Evis; [|reflexivity]. cbn [andb].
    destruct (displayed v) eqn:Ed.
    + destruct v; cbn in *. now rewrite Ed.
    + exfalso. assert (Hin' : In v (to_render isVisible o (views m))).
      { apply filter_In. split; [exact Hin|]. now rewrite Evis, Ed. }
      rewrite <- Hp in Hin'. exact Hin'.
  - cbn [fst]. rewrite <- Hp in Hok.
    destruct (settle_all_resolved display_ok
                (p_view (update_sync isVisible _offset m)) (x :: P)
                (p_m (update_sync isVisible _offset m)) Hok) as (Hsv & _).
    rewrite Hsv, Hv. rewrite fold_mutate_map by (intros; reflexivity).
    rewrite map_map, Hp. apply map_ext_in. intros v Hin.
    assert (Hvid : vid (if isVisible v o o && displayed v
                        then set_shown true v else v) = vid v)
      by (destruct (isVisible v o o && displayed v); reflexivity).
    rewrite Hvid. unfold to_render.
    rewrite (existsb_filter_vid
               (fun v => isVisible v o o && negb (displayed v))
               (views m) v Hnd Hin).
    destruct (isVisible v o o) eqn:Evis; cbn [andb]; [|reflexivity].
    destruct (displayed v) eqn:Ed; cbn [negb].
    + destruct v; cbn in *. now rewrite Ed.
    + reflexivity.
Qed.

(** X11: [update] is idempotent on the views once its displays have
    resolved: a second pass with the same margin, the visibility of a view
    depending on which view it is and not on its flags, starts no display,
    resolves with undefined and leaves every view as the first pass left
    it. *)
Theorem update_idempotent :
  forall (isVisible : View -> Q -> Q -> bool) (display_ok : View -> bool)
         (_offset : option Q) (m : Manager),
    NoDup (map vid (views m)) ->
    (forall v w x y, vid v = vid w -> isVisible v x y = isVisible w x y) ->
    forallb display_ok (to_render isVisible (update_margin _offset m) (views m))
    = true ->
    views (fst (update isVisible display_ok _offset
                  (fst (update isVisible display_ok _offset m))))
    = views (fst (update isVisible display_ok _offset m)) /\
    snd (update isVisible display_ok _offset
           (fst (update isVisible display_ok _offset m)))
    = RUndefined.
Proof.
  intros isVisible display_ok _offset m Hnd Hvis Hok.
  set (m1 := fst (update isVisible display_ok _offset m)).
  destruct (update_keeps_ids isVisible display_ok _offset m)
    as (Hids & Hset).
  fold m1 in Hids, Hset.
  assert (Hmargin : update_margin _offset m1 = update_margin _offset m)
    by (unfold update_margin; now rewrite Hset).
  set (o := update_margin _offset m) in *.
  pose proof (update_views_resolved isVisible display_ok _offset m Hnd Hok)
    as Hv1. fold m1 o in Hv1.
  assert (Hnd1 : NoDup (map vid (views m1))) by (now rewrite Hids).
  assert (Hnone : to_render isVisible o (views m1) = []).
  { rewrite Hv1. unfold to_render. apply filter_none. intros x Hx.
    apply in_map_iff in Hx. destruct Hx as (v & <- & _).
    destruct (isVisible v o o) eqn:Evis.
    - cbn [displayed set_shown set_displayed negb]. apply andb_false_r.
    - now rewrite Evis. }
  split.
  - unfold update, update_settle.
    rewrite update_sync_promises, Hmargin, Hnone. cbn [fst].
    rewrite (update_sync_views isVisible _offset m1 Hnd1), Hmargin.
    rewrite Hv1, map_map. apply map_ext. intros v.
    destruct (isVisible v o o) eqn:Evis.
    + rewrite (Hvis (set_shown true (set_displayed true v)) v o o eq_refl).
      rewrite Evis. reflexivity.
    + now rewrite Evis.
  - unfold update, update_settle.
    now rewrite update_sync_promises, Hmargin, Hnone.
Qed.

Lemma update_idempotent_witness :
  views (fst (update first_two always None
                (fst (update first_two always None mixed_window))))
  = views (fst (update first_two always None mixed_window)) /\
  snd (update first_two always None
         (fst (update first_two always None mixed_window)))
  = RUndefined.
Proof.
  apply (update_idempotent first_two always None mixed_window).
  - cbn. repeat constructor; cbn; intuition discriminate.
  - intros v w x y E. unfold first_two. now rewrite E.
  - reflexivity.
Defined.


(** ** The scroll tracker *)

(** X12: with the whole viewport as scroll owner, the sign flip of the
    scroll listener and the one of [check] combine so that, after a scroll
    event, the normalised offset of [check] on a non-horizontal axis is
    always [window.scrollY], and on a horizontal axis it is [-window.scrollX]
    exactly for direction rtl with policy 'default' or 'negative', and
    [window.scrollX] otherwise. *)
Theorem onScroll_normalised_fullsize :
  forall s : Scroller,
    fullsize (settings (s_m s)) = true ->
    check_offset (s_m (onScroll s))
    == (if horizontal (s_m s)
        then if rtl (s_m s)
                && (str_is (rtlScrollType (settings (s_m s))) "default"
                    || str_is (rtlScrollType (settings (s_m s))) "negative")
             then - window_scrollX (dom (s_m s))
             else window_scrollX (dom (s_m s))
        else window_scrollY (dom (s_m s))).
Proof.
  intros s Hf. unfold onScroll, read_scroll. rewrite Hf. cbn [negb s_m].
  unfold check_offset, raw_offset, horizontal, rtl, scroll_dir, rtl.
  cbn [settings set_tracked scrollTop scrollLeft]. rewrite Hf. cbn [negb].
  destruct (str_is (axis (settings (s_m s))) "horizontal");
    destruct (str_is (direction (settings (s_m s))) "rtl");
    destruct (str_is (rtlScrollType (settings (s_m s))) "default") eqn:Ed;
    try rewrite (default_not_negative _ Ed);
    try destruct (str_is (rtlScrollType (settings (s_m s))) "negative");
    cbn [andb orb negb]; ring.
Qed.

Lemma onScroll_normalised_fullsize_witness :
  check_offset
    (s_m (onScroll (listening viewport_default_vertical false)))
  == 5.
Proof.
  exact (onScroll_normalised_fullsize
           (listening viewport_default_vertical false) eq_refl).
Defined.

Lemma scroll_event_frame :
  forall s d,
    q (s_m (scroll_event s d)) = q (s_m s) /\
    views (s_m (scroll_event s d)) = views (s_m s) /\
    emitted (scroll_event s d) = emitted s /\
    scrolled_pending (scroll_event s d)
    = (negb (ignore s) || scrolled_pending s) /\
    ignore (scroll_event s d) = false.
Proof.
  intros s d. unfold scroll_event, onScroll. cbn [s_m ignore scrolled_pending].
  destruct (read_scroll (set_dom d (s_m s))) as [top lft].
  cbn [s_m emitted scrolled_pending ignore].
  destruct (ignore s); repeat split.
Qed.

Lemma burst_frame :
  forall ds s,
    q (s_m (fold_left scroll_event ds s)) = q (s_m s) /\
    views (s_m (fold_left scroll_event ds s)) = views (s_m s) /\
    emitted (fold_left scroll_event ds s) = emitted s.
Proof.
  induction ds as [|d ds IH]; intros s; [repeat split|].
  cbn [fold_left]. destruct (IH (scroll_event s d)) as (Hq & Hv & He).
  destruct (scroll_event_frame s d) as (Hq1 & Hv1 & He1 & _).
  rewrite Hq, Hv, He. repeat split; assumption.
Qed.

Lemma burst_pending :
  forall ds s,
    ignore s = false -> ds <> [] ->
    scrolled_pending (fold_left scroll_event ds s) = true.
Proof.
  induction ds as [|d ds IH]; intros s Hi Hne; [contradiction|].
  cbn [fold_left]. destruct (scroll_event_frame s d) as (_ & _ & _ & Hp & Hi1).
  rewrite Hi in Hp. cbn in Hp.
  destruct ds as [|d' ds']; [exact Hp|].
  apply IH; [exact Hi1|discriminate].
Qed.

(** X13: scroll events are coalesced: after any burst of one or more scroll
    events and the end of the quiet period of the debounce, exactly one
    [check] has been added to the queue and one SCROLL event emitted, with
    the position tracked last -- except that the pending silent flag
    [ignore] swallows the first event of the burst, so that a burst of a
    single event then enqueues nothing. *)
Theorem scroll_burst_enqueues_one_check :
  forall (ds : list Dom) (s : Scroller),
    ds <> [] ->
    scrolled_pending s = false ->
    let s' := run_debounced (fold_left scroll_event ds s) in
    (if ignore s && (List.length ds =? 1)%nat
     then q (s_m s') = q (s_m s) /\ emitted s' = emitted s
     else q (s_m s') = q (s_m s) ++ [TCheck] /\
          emitted s'
          = emitted s ++ [EScroll (scrollTop (s_m s')) (scrollLeft (s_m s'))])
    /\ views (s_m s') = views (s_m s)
    /\ ignore s' = false.
Proof.
  intros ds s Hne Hp. cbn zeta.
  destruct ds as [|d ds]; [contradiction|]. cbn [fold_left List.length].
  destruct (scroll_event_frame s d) as (Hq1 & Hv1 & He1 & Hp1 & Hi1).
  rewrite Hp, orb_false_r in Hp1.
  destruct (burst_frame ds (scroll_event s d)) as (Hq & Hv & He).
  assert (Hign : ignore (fold_left scroll_event ds (scroll_event s d)) = false).
  { clear -Hi1. revert Hi1. generalize (scroll_event s d).
    induction ds as [|d' ds IH]; intros s0 H0; [exact H0|].
    cbn [fold_left]. apply IH.
    now destruct (scroll_event_frame s0 d') as (_ & _ & _ & _ & H). }
  destruct ds as [|d' ds].
  - cbn [fold_left List.length Nat.eqb] in *. rewrite andb_true_r.
    unfold run_debounced. rewrite Hp1.
    destruct (ignore s); cbn [negb].
    + repeat split; assumption.
    + unfold scrolled. cbn [s_m emitted ignore enqueue q set_q views
                              scrollTop scrollLeft].
      rewrite Hq1, Hv1, He1. repeat split. exact Hi1.
  - replace (ignore s && (S (List.length (d' :: ds)) =? 1)%nat) with false
      by (cbn; now rewrite andb_false_r).
    assert (Hpend : scrolled_pending
                      (fold_left scroll_event (d' :: ds) (scroll_event s d))
                    = true)
      by (apply burst_pending; [exact Hi1|discriminate]).
    unfold run_debounced. rewrite Hpend. unfold scrolled.
    cbn [s_m emitted ignore enqueue q set_q views scrollTop scrollLeft].
    rewrite Hq, Hv, He, Hq1, Hv1, He1. repeat split. exact Hign.
Qed.

Lemma scroll_burst_enqueues_one_check_witness :
  q (s_m (run_debounced
            (fold_left scroll_event
               [mkDom 0 10 600 3000 0 0; mkDom 0 40 600 3000 0 0]
               (listening single_window false))))
  = [TCheck] /\
  q (s_m (run_debounced
            (fold_left scroll_event [mkDom 0 10 600 3000 0 0]
               (listening single_window true))))
  = [].
Proof.
  split.
  - exact (proj1 (proj1 (scroll_burst_enqueues_one_check
                    [mkDom 0 10 600 3000 0 0; mkDom 0 40 600 3000 0 0]
                    (listening single_window false)
                    ltac:(discriminate) eq_refl))).
  - exact (proj1 (proj1 (scroll_burst_enqueues_one_check
                    [mkDom 0 10 600 3000 0 0]
                    (listening single_window true)
                    ltac:(discriminate) eq_refl))).
Defined.

Lemma scroll_event_delta :
  forall s d,
    exists x,
      prevScrollTop (scroll_event s d) = Some x /\
      scrollDeltaVert (scroll_event s d)
      = accumulate (scrollDeltaVert s) x (prevScrollTop s).
Proof.
  intros s d. unfold scroll_event, onScroll.
  cbn [s_m ignore scrolled_pending scrollDeltaVert prevScrollTop].
  destruct (read_scroll (set_dom d (s_m s))) as [top lft].
  exists top. split; reflexivity.
Qed.



(** X15: when no previous position has been recorded ([prevScrollTop] is
    undefined), a scroll event turns the accumulated vertical distance into
    NaN, and it stays NaN through every further scroll event; only the
    callback of the 150 timer, which the event arms, makes it 0 again. *)
Theorem scroll_distance_nan_until_reset :
  forall (ds : list Dom) (s : Scroller),
    prevScrollTop s = None ->
    ds <> [] ->
    scrollDeltaVert (fold_left scroll_event ds s) = None /\
    scrollTimeout (fold_left scroll_event ds s) = true /\
    scrollDeltaVert (reset_deltas (fold_left scroll_event ds s)) = Some 0.
Proof.
  intros ds s Hp Hne.
  assert (Hnan : forall l s0, scrollDeltaVert s0 = None ->
                   scrollDeltaVert (fold_left scroll_event l s0) = None).
  { induction l as [|e l IH]; intros s0 H0; [exact H0|].
    cbn [fold_left]. apply IH.
    destruct (scroll_event_delta s0 e) as (x & _ & Hacc).
    rewrite Hacc, H0. reflexivity. }
  assert (Harm : forall l s0, l <> [] ->
                   scrollTimeout (fold_left scroll_event l s0) = true).
  { induction l as [|e l IH]; intros s0 Hl; [contradiction|].
    cbn [fold_left]. destruct l as [|e' l'].
    - cbn [fold_left]. unfold scroll_event, onScroll. cbn [s_m].
      now destruct (read_scroll (set_dom e (s_m s0))).
    - apply IH. discriminate. }
  destruct ds as [|e ds]; [contradiction|].
  assert (H1 : scrollDeltaVert (fold_left scroll_event (e :: ds) s) = None).
  { cbn [fold_left]. apply Hnan.
    destruct (scroll_event_delta s e) as (x & _ & Hacc).
    rewrite Hacc, Hp. now destruct (scrollDeltaVert s). }
  pose proof (Harm (e :: ds) s Hne) as H2.
  split; [exact H1|]. split; [exact H2|].
  unfold reset_deltas. now rewrite H2.
Qed.

Lemma scroll_distance_nan_until_reset_witness :
  scrollDeltaVert
    (fold_left scroll_event [mkDom 0 10 600 3000 0 0]
       (addScrollListeners
          (mkScroller single_window false None None None None false false
             false false []))) = None.
Proof.
  exact (proj1 (scroll_distance_nan_until_reset [mkDom 0 10 600 3000 0 0]
                  (addScrollListeners
                     (mkScroller single_window false None None None None
                        false false false false []))
                  eq_refl ltac:(discriminate))).
Defined.

(** * Navigation *)

Section NavigationFacts.

Import Navigation.

Lemma NavItem_forest_ind :
  forall P : NavItem -> Prop,
    (forall i h l s, Forall P s -> P (mkNavItem i h l s)) ->
    forall it, P it.
Proof.
  intros P H. fix IH 1. intros [i h l s]. apply H.
  induction s as [|x s IHs]; constructor; [apply IH|exact IHs].
Qed.

Lemma for_each_indexed_app :
  forall (A St : Type) (f : nat -> A -> St -> St) (l1 l2 : list A) j st,
    for_each_indexed f (l1 ++ l2) j st
    = for_each_indexed f l2 (j + List.length l1)
        (for_each_indexed f l1 j st).
Proof.
  intros A St f. induction l1 as [|x l1 IH]; intros l2 j st; cbn.
  - now rewrite Nat.add_0_r.
  - rewrite IH. f_equal. lia.
Qed.

Lemma unpack_item_length :
  forall it i n,
    length (unpack_item i it n) = (length n + count_item it)%nat /\
    toc (unpack_item i it n) = toc n.
Proof.
  induction it as [d h l s IH] using NavItem_forest_ind. intros i n.
  cbn [unpack_item count_item].
  set (n1 := match h with
             | Some h0 =>
                 if truthy_string h
                 then mkNav (toc n) (assign h0 i (tocByHref n)) (tocById n)
                        (length n)
                 else n
             | None => n
             end).
  assert (H1 : length n1 = length n /\ toc n1 = toc n).
  { subst n1. destruct h as [h0|];
      [destruct (truthy_string (Some h0))|]; split; reflexivity. }
  set (n2 := match d with
             | Some d0 =>
                 if truthy_string d
                 then mkNav (toc n1) (tocByHref n1) (assign d0 i (tocById n1))
                        (length n1)
                 else n1
             | None => n1
             end).
  assert (H2 : length n2 = length n /\ toc n2 = toc n).
  { subst n2. destruct d as [d0|];
      [destruct (truthy_string (Some d0))|]; cbn [length toc]; exact H1. }
  set (n3 := mkNav (toc n2) (tocByHref n2) (tocById n2) (S (length n2))).
  assert (H3 : length n3 = S (length n) /\ toc n3 = toc n).
  { subst n3. cbn. destruct H2 as (-> & ->). split; reflexivity. }
  clearbody n3. clear n1 n2 H1 H2.
  assert (Hloop : forall j m,
            length (for_each_indexed unpack_item s j m)
            = (length m + fold_right (fun x acc => count_item x + acc) 0 s)%nat
            /\ toc (for_each_indexed unpack_item s j m) = toc m).
  { induction IH as [|x s Hx _ IHs]; intros j m; cbn.
    - split; [lia|reflexivity].
    - destruct (IHs (S j) (unpack_item j x m)) as (Hl & Ht).
      destruct (Hx j m) as (Hl' & Ht'). rewrite Hl, Ht, Hl', Ht'.
      split; [lia|reflexivity]. }
  destruct (Hloop 0%nat n3) as (Hl & Ht). destruct H3 as (Hl3 & Ht3).
  rewrite Hl, Ht, Hl3, Ht3. split; [lia|reflexivity].
Qed.

Lemma unpack_length :
  forall items j n,
    length (for_each_indexed unpack_item items j n)
    = (length n + count_items items)%nat /\
    toc (for_each_indexed unpack_item items j n) = toc n.
Proof.
  unfold count_items.
  induction items as [|x items IH]; intros j n;
    cbn [for_each_indexed fold_right].
  - split; [lia|reflexivity].
  - destruct (IH (S j) (unpack_item j x n)) as (Hl & Ht).
    destruct (unpack_item_length x j n) as (Hl' & Ht').
    rewrite Hl, Ht, Hl', Ht'. split; [lia|reflexivity].
Qed.

Lemma Json_forest_ind :
  forall P : Json -> Prop,
    (forall i h t, P (mkJson i h t None)) ->
    (forall i h t c, Forall P c -> P (mkJson i h t (Some c))) ->
    forall j, P j.
Proof.
  intros P Hn Hs. fix IH 1. intros [i h t [c|]]; [|apply Hn]. apply Hs.
  induction c as [|x c IHc]; constructor; [apply IH|exact IHc].
Qed.

Lemma count_load_item :
  forall j, count_item (load_item j) = count_json_item j.
Proof.
  induction j as [i h t|i h t c IH] using Json_forest_ind; [reflexivity|].
  cbn [load_item count_item count_json_item]. f_equal.
  induction IH as [|x c Hx _ IHc]; [reflexivity|].
  cbn. now rewrite Hx, IHc.
Qed.

Lemma count_load :
  forall json, count_items (load json) = count_json json.
Proof.
  unfold load, count_items, count_json.
  induction json as [|j json IH]; [reflexivity|].
  cbn [map fold_right]. now rewrite count_load_item, IH.
Qed.

(** X16: parsing a table of contents given as JSON counts every item once:
    after [parse] the [length] of the navigation is the number of items of
    the input at all depths, whatever the indices held before, and the table
    of contents is the loaded input. *)
Theorem parse_json_length :
  forall (json : list Json) (n : Nav),
    length (parse_json json n) = count_json json /\
    toc (parse_json json n) = load json.
Proof.
  intros json n. unfold parse_json, unpack.
  destruct (unpack_length (load json) 0
              (mkNav (load json) (tocByHref n) (tocById n) 0)) as (Hl & Ht).
  rewrite Hl, Ht. cbn [length toc]. split; [|reflexivity].
  now rewrite count_load.
Qed.

Lemma first_result_some :
  forall (A B : Type) (f : A -> option B) l r,
    first_result f l = Some r -> exists y, In y l /\ f y = Some r.
Proof.
  intros A B f. induction l as [|x l IH]; intros r H; [discriminate|].
  cbn in H. destruct (f x) as [r'|] eqn:E.
  - injection H as ->. exists x. split; [now left|exact E].
  - destruct (IH r H) as (y & Hy & Hf). exists y. split; [now right|exact Hf].
Qed.

Lemma getByIndex_body_sound :
  forall t idx (below : NavItem -> option NavItem) L r,
    Forall (fun y => forall r, below y = Some r ->
                       matches t r = true /\ occurs r (subitems y)) L ->
    getByIndex_body t idx below L = Some r ->
    matches t r = true /\ occurs r L.
Proof.
  intros t idx below L r HF H. unfold getByIndex_body in H.
  destruct L as [|x0 L0]; [discriminate|].
  set (L := x0 :: L0) in *.
  assert (Hloop : first_result below L = Some r ->
                  matches t r = true /\ occurs r L).
  { intros Hf. destruct (first_result_some _ _ _ _ _ Hf) as (y & Hy & Hb).
    rewrite Forall_forall in HF. destruct (HF y Hy r Hb) as (Hm & Ho).
    split; [exact Hm|]. now apply occurs_below with y. }
  destruct (match idx with Some i => nth_error L i | None => None end)
    as [x|] eqn:Ex; [|now apply Hloop].
  destruct (matches t x) eqn:Em; [|now apply Hloop].
  injection H as <-. split; [exact Em|].
  apply occurs_here. destruct idx as [i|]; [|discriminate].
  now apply nth_error_In with i.
Qed.

Lemma getByIndex_below_sound :
  forall t idx it r,
    getByIndex_below t idx it = Some r ->
    matches t r = true /\ occurs r (subitems it).
Proof.
  intros t idx. induction it as [d h l s IH] using NavItem_forest_ind.
  intros r H. cbn [getByIndex_below] in H. cbn [subitems].
  now apply (getByIndex_body_sound t idx (getByIndex_below t idx) s r).
Qed.

Lemma getByIndex_sound :
  forall t idx L r,
    getByIndex t idx L = Some r -> matches t r = true /\ occurs r L.
Proof.
  intros t idx L r H.
  apply (getByIndex_body_sound t idx (getByIndex_below t idx) L r);
    [|exact H].
  apply Forall_forall. intros y _ r' Hr'.
  now apply getByIndex_below_sound with idx.
Qed.

Lemma mentions_matches :
  forall h it, matches h it = true -> mentions h it = true.
Proof.
  intros h [d r l s] H. cbn [mentions]. unfold matches in *. cbn in *.
  now rewrite H.
Qed.

Lemma mentions_below :
  forall h y, existsb (mentions h) (subitems y) = true -> mentions h y = true.
Proof.
  intros h [d r l s] H. cbn [mentions subitems] in *. rewrite H.
  apply orb_true_r.
Qed.

Lemma occurs_mentions :
  forall h r L,
    occurs r L -> matches h r = true -> existsb (mentions h) L = true.
Proof.
  intros h r L Ho Hm. induction Ho as [l Hin|l y Hin _ IH].
  - apply existsb_exists. exists r. split; [exact Hin|].
    now apply mentions_matches.
  - apply existsb_exists. exists y. split; [exact Hin|].
    now apply mentions_below.
Qed.

(** X17: [get] returns only items that carry the target itself: an item it
    returns occurs in the table of contents and has the target string as its
    id or as its href; and when no item has the target as id or href, [get]
    returns undefined.  The '#' of a target such as '#c2' is kept in that
    comparison, so that such a target does not find the item of id 'c2'. *)
Theorem get_returns_matching_item :
  forall (t : string) (n : Nav),
    (forall r, get (Some t) n = GItem r ->
               matches t r = true /\ occurs r (toc n)) /\
    (t <> "" -> clean t (toc n) -> get (Some t) n = GUndefined).
Proof.
  intros t n. split.
  - intros r H. unfold get in H. destruct (String.eqb t ""); [discriminate|].
    destruct (getByIndex t _ (toc n)) as [x|] eqn:E; [|discriminate].
    injection H as <-. now apply getByIndex_sound in E.
  - intros Hne Hc. unfold get.
    destruct (String.eqb_spec t "") as [E|_]; [contradiction|].
    destruct (getByIndex t _ (toc n)) as [x|] eqn:E; [|reflexivity].
    apply getByIndex_sound in E. destruct E as (Hm & Ho).
    unfold clean in Hc. rewrite (occurs_mentions t x (toc n) Ho Hm) in Hc.
    discriminate.
Qed.

Lemma get_returns_matching_item_witness :
  (matches "ch2b.xhtml"
     (mkNavItem (Some "c2b") (Some "ch2b.xhtml") (Some "Two B") []) = true /\
   occurs (mkNavItem (Some "c2b") (Some "ch2b.xhtml") (Some "Two B") [])
     (toc (unpack sample_toc (mkNav sample_toc [] [] 0)))) /\
  get (Some "#c2") (unpack sample_toc (mkNav sample_toc [] [] 0))
  = GUndefined.
Proof.
  split.
  - apply (proj1 (get_returns_matching_item "ch2b.xhtml"
                    (unpack sample_toc (mkNav sample_toc [] [] 0)))).
    reflexivity.
  - apply (proj2 (get_returns_matching_item "#c2"
                    (unpack sample_toc (mkNav sample_toc [] [] 0)))).
    + discriminate.
    + reflexivity.
Defined.

Lemma lookup_assign_other :
  forall k k' i o,
    String.eqb k' k = false -> lookup k (assign k' i o) = lookup k o.
Proof.
  intros k k' i o H. unfold lookup, assign.
  destruct (String.eqb k "__proto__"); [reflexivity|].
  destruct (String.eqb k' "__proto__"); [reflexivity|].
  cbn [lookup_own]. now rewrite H.
Qed.

Lemma lookup_assign_same :
  forall k i o, k <> "__proto__" -> lookup k (assign k i o) = Some i.
Proof.
  intros k i o H. unfold lookup, assign.
  destruct (String.eqb_spec k "__proto__") as [E|_]; [contradiction|].
  cbn [lookup_own]. now rewrite String.eqb_refl.
Qed.

Lemma matches_false :
  forall h d r l s,
    matches h (mkNavItem d r l s) = false ->
    forall h', r = Some h' -> String.eqb h' h = false.
Proof.
  intros h d r l s H h' ->. unfold matches in H. cbn [id href] in H.
  apply orb_false_iff in H. destruct H as (_ & H).
  now rewrite String.eqb_sym.
Qed.

Lemma mentions_false :
  forall h d r l s,
    mentions h (mkNavItem d r l s) = false ->
    matches h (mkNavItem d r l s) = false /\ clean h s.
Proof.
  intros h d r l s H. cbn [mentions] in H. apply orb_false_iff in H.
  destruct H as (Hm & Hs). split; [exact Hm|exact Hs].
Qed.

Lemma clean_cons :
  forall h x l, clean h (x :: l) -> mentions h x = false /\ clean h l.
Proof.
  intros h x l H. unfold clean in *. cbn in H.
  now apply orb_false_iff in H.
Qed.

Lemma clean_app :
  forall h l1 l2, clean h (l1 ++ l2) -> clean h l1 /\ clean h l2.
Proof.
  intros h l1 l2 H. unfold clean in *. rewrite existsb_app in H.
  now apply orb_false_iff in H.
Qed.

(** What one turn of [unpack] does to the index by href, for a key that is
    not the item's own href. *)
Lemma unpack_item_head :
  forall h d r l s i n,
    (forall h', r = Some h' -> String.eqb h' h = false) ->
    exists n',
      unpack_item i (mkNavItem d r l s) n
      = for_each_indexed unpack_item s 0 n' /\
      lookup h (tocByHref n') = lookup h (tocByHref n).
Proof.
  intros h d r l s i n Hr. cbn [unpack_item]. eexists. split; [reflexivity|].
  cbn [tocByHref].
  assert (H1 : lookup h (tocByHref
                 match r with
                 | Some h0 =>
                     if truthy_string r
                     then mkNav (toc n) (assign h0 i (tocByHref n))
                            (tocById n) (length n)
                     else n
                 | None => n
                 end) = lookup h (tocByHref n)).
  { destruct r as [h0|]; [|reflexivity].
    destruct (truthy_string (Some h0)); [|reflexivity].
    cbn [tocByHref]. apply lookup_assign_other. exact (Hr h0 eq_refl). }
  destruct d as [d0|]; [destruct (truthy_string (Some d0))|];
    cbn [tocByHref]; exact H1.
Qed.

Lemma clean_lookup_item :
  forall h it,
    mentions h it = false ->
    forall i n,
      lookup h (tocByHref (unpack_item i it n)) = lookup h (tocByHref n).
Proof.
  intros h. induction it as [d r l s IH] using NavItem_forest_ind.
  intros Hm i n. destruct (mentions_false h d r l s Hm) as (Hmat & Hs).
  destruct (unpack_item_head h d r l s i n (matches_false h d r l s Hmat))
    as (n' & -> & <-).
  clear Hm Hmat. generalize 0%nat as j. revert n'.
  induction IH as [|x s Hx _ IHs]; intros n' j; [reflexivity|].
  destruct (clean_cons h x s Hs) as (Hx' & Hs').
  cbn [for_each_indexed]. rewrite (IHs Hs'). now apply Hx.
Qed.

Lemma clean_lookup :
  forall h l, clean h l ->
    forall j n,
      lookup h (tocByHref (for_each_indexed unpack_item l j n))
      = lookup h (tocByHref n).
Proof.
  intros h. induction l as [|x l IH]; intros Hc j n; [reflexivity|].
  destruct (clean_cons h x l Hc) as (Hx & Hl).
  cbn [for_each_indexed]. rewrite (IH Hl). now apply clean_lookup_item.
Qed.

Lemma only_at_lookup :
  forall h x j l,
    only_at h x j l -> h <> "" -> h <> "__proto__" ->
    forall n,
      lookup h (tocByHref (for_each_indexed unpack_item l 0 n)) = Some j.
Proof.
  intros h x j l H Hne Hproto.
  induction H as [pre post Hj Hh Hpre Hsub Hpost
                 |pre y post Hy Hpre Hpost _ IH]; intros n.
  - rewrite for_each_indexed_app. cbn [for_each_indexed].
    rewrite (clean_lookup h post Hpost).
    destruct x as [d r l s]. cbn [href subitems] in Hh, Hsub. subst r.
    cbn [unpack_item].
    assert (Ht : truthy_string (Some h) = true).
    { cbn. destruct (String.eqb_spec h ""); [contradiction|reflexivity]. }
    rewrite Ht. rewrite (clean_lookup h s Hsub). cbn [tocByHref].
    destruct d as [d0|]; [destruct (truthy_string (Some d0))|];
      cbn [tocByHref]; rewrite (lookup_assign_same h _ _ Hproto);
      f_equal; lia.
  - rewrite for_each_indexed_app. cbn [for_each_indexed].
    rewrite (clean_lookup h post Hpost).
    destruct y as [d r l s]. cbn [subitems] in IH.
    destruct (unpack_item_head h d r l s (0 + List.length pre)
                (for_each_indexed unpack_item pre 0 n)
                (matches_false h d r l s Hy)) as (n' & -> & _).
    apply IH.
Qed.

Lemma clean_below_none :
  forall h idx y, mentions h y = false -> getByIndex_below h idx y = None.
Proof.
  intros h idx y Hm. destruct (getByIndex_below h idx y) as [r|] eqn:E;
    [|reflexivity].
  apply getByIndex_below_sound in E. destruct E as (Hr & Ho).
  rewrite (mentions_below h y (occurs_mentions h r _ Ho Hr)) in Hm.
  discriminate.
Qed.

Lemma first_result_skip :
  forall h idx pre rest,
    clean h pre ->
    first_result (getByIndex_below h idx) (pre ++ rest)
    = first_result (getByIndex_below h idx) rest.
Proof.
  intros h idx. induction pre as [|p pre IH]; intros rest Hc; [reflexivity|].
  destruct (clean_cons h p pre Hc) as (Hp & Hpre).
  cbn. rewrite (clean_below_none h idx p Hp). now apply IH.
Qed.

Lemma clean_no_match :
  forall h l z, clean h l -> In z l -> matches h z = false.
Proof.
  intros h l z Hc Hin. destruct (matches h z) eqn:E; [|reflexivity].
  unfold clean in Hc.
  assert (Ht : existsb (mentions h) l = true).
  { apply existsb_exists. exists z. split; [exact Hin|].
    now apply mentions_matches. }
  congruence.
Qed.

Lemma only_at_getByIndex :
  forall h x j l, only_at h x j l -> getByIndex h (Some j) l = Some x.
Proof.
  intros h x j l H.
  induction H as [pre post Hj Hh Hpre Hsub Hpost
                 |pre y post Hy Hpre Hpost _ IH].
  - unfold getByIndex, getByIndex_body.
    destruct (pre ++ x :: post) as [|a b] eqn:E;
      [destruct pre; discriminate|]. rewrite <- E.
    rewrite Hj, nth_error_app2, Nat.sub_diag by lia. cbn [nth_error].
    assert (Hm : matches h x = true).
    { unfold matches. rewrite Hh, String.eqb_refl. apply orb_true_r. }
    now rewrite Hm.
  - unfold getByIndex, getByIndex_body.
    destruct (pre ++ y :: post) as [|a b] eqn:E;
      [destruct pre; discriminate|]. rewrite <- E.
    assert (Hloop : first_result (getByIndex_below h (Some j))
                      (pre ++ y :: post) = Some x).
    { rewrite (first_result_skip h (Some j) pre (y :: post) Hpre).
      cbn [first_result]. destruct y as [d r l s].
      cbn [getByIndex_below subitems] in *.
      unfold getByIndex in IH. now rewrite IH. }
    destruct (nth_error (pre ++ y :: post) j) as [z|] eqn:Ez;
      [|exact Hloop].
    assert (Hz : matches h z = false).
    { apply nth_error_In in Ez. apply in_app_or in Ez.
      destruct Ez as [Hin|[<-|Hin]].
      - now apply clean_no_match with pre.
      - exact Hy.
      - now apply clean_no_match with post. }
    now rewrite Hz.
Qed.

(** X18: [get] finds an item by its href at any depth when that href is
    unambiguous: if exactly one item of the table of contents has the
    non-empty href [h] (not starting with '#', and not the key '__proto__',
    which an index object cannot hold), and no item has [h] as id, then after
    [unpack] a lookup of [h] returns that item, whatever the indices held
    before. *)
Theorem get_finds_unique_href :
  forall (h : string) (x : NavItem) (j : nat) (items : list NavItem)
         (byHref byId : Index) (len : nat),
    only_at h x j items ->
    h <> "" ->
    h <> "__proto__" ->
    String.prefix "#" h = false ->
    get (Some h) (unpack items (mkNav items byHref byId len)) = GItem x.
Proof.
  intros h x j items byHref byId len Hat Hne Hproto Hhash. unfold get.
  destruct (String.eqb_spec h "") as [E|_]; [contradiction|].
  rewrite Hhash. unfold unpack.
  rewrite (only_at_lookup h x j items Hat Hne Hproto).
  destruct (unpack_length items 0 (mkNav items byHref byId len)) as (_ & Ht).
  rewrite Ht. cbn [toc].
  now rewrite (only_at_getByIndex h x j items Hat).
Qed.

Lemma get_finds_unique_href_witness :
  get (Some "ch2b.xhtml") (unpack sample_toc (mkNav sample_toc [] [] 0))
  = GItem (mkNavItem (Some "c2b") (Some "ch2b.xhtml") (Some "Two B") []).
Proof.
  apply (get_finds_unique_href "ch2b.xhtml"
           (mkNavItem (Some "c2b") (Some "ch2b.xhtml") (Some "Two B") [])
           1 sample_toc [] [] 0).
  - apply (only_below "ch2b.xhtml" _ 1
             [mkNavItem (Some "c1") (Some "ch1.xhtml") (Some "One") []]
             (mkNavItem (Some "c2") (Some "ch2.xhtml") (Some "Two")
                [mkNavItem (Some "c2a") (Some "ch2.xhtml#a") (Some "Two A") [];
                 mkNavItem (Some "c2b") (Some "ch2b.xhtml") (Some "Two B") []])
             [mkNavItem (Some "c3") (Some "ch3.xhtml") (Some "Three") []]);
      try reflexivity.
    apply (only_here "ch2b.xhtml" _ 1
             [mkNavItem (Some "c2a") (Some "ch2.xhtml#a") (Some "Two A") []]
             []); reflexivity.
  - discriminate.
  - discriminate.
  - reflexivity.
Defined.

End NavigationFacts.

(** * PageList *)

Section PageListFacts.

Import PageList.

Lemma process_items_fold :
  forall items pl,
    pages (fold_left process_item items pl)
    = pages pl ++ map page items.
Proof.
  induction items as [|it items IH]; intros pl; cbn [fold_left map].
  - now rewrite app_nil_r.
  - rewrite IH. cbn [process_item pages]. now rewrite <- app_assoc.
Qed.

Lemma process_locations_fold :
  forall items pl,
    Forall has_cfi items ->
    exists cs,
      locations (fold_left process_item items pl) = locations pl ++ cs /\
      map Some cs = map cfi items.
Proof.
  induction items as [|it items IH]; intros pl HF; cbn [fold_left map].
  - exists []. now rewrite app_nil_r.
  - inversion HF as [|? ? (c & Hc & Hne) HF']; subst.
    destruct (IH (process_item pl it) HF') as (cs & Hl & Hm).
    exists (c :: cs). rewrite Hl. cbn [process_item locations]. rewrite Hc.
    destruct (String.eqb_spec c "") as [E|_]; [contradiction|].
    rewrite <- app_assoc. split; [reflexivity|]. cbn [map]. now rewrite Hm.
Qed.

Lemma indexOf_first :
  forall (l : list (option Z)) (i j : nat) (z : Z),
    nth_error l i = Some (Some z) ->
    (forall k, (k < i)%nat -> nth_error l k <> Some (Some z)) ->
    indexOf_from j (Some z) l = Some (j + i)%nat.
Proof.
  induction l as [|x l IH]; intros i j z Hi Hfirst.
  - destruct i; discriminate.
  - destruct i as [|i].
    + cbn in Hi. injection Hi as ->. cbn. rewrite Z.eqb_refl.
      f_equal. lia.
    + cbn [indexOf_from].
      assert (Hx : x <> Some z).
      { intros ->. apply (Hfirst 0%nat); [lia|reflexivity]. }
      assert (Hrec : indexOf_from (S j) (Some z) l = Some (S j + i)%nat).
      { apply IH; [exact Hi|]. intros k Hk. apply (Hfirst (S k)). lia. }
      replace (j + S i)%nat with (S j + i)%nat by lia.
      destruct x as [b|]; [|exact Hrec].
      destruct (Z.eqb_spec z b) as [->|_]; [contradiction|exact Hrec].
Qed.

(** X19: [process] followed by [cfiFromPage] gives back the cfi of a page:
    for a page list in which every item has a cfi, the cfi returned for the
    page number of an item is the cfi of that item, provided no earlier item
    has the same page number. *)
Theorem cfiFromPage_after_process :
  forall (items : list Item) (i : nat) (it : Item) (z : Z),
    Forall has_cfi items ->
    nth_error items i = Some it ->
    page it = Some z ->
    (forall k it', (k < i)%nat -> nth_error items k = Some it' ->
                   page it' <> Some z) ->
    exists c, cfi it = Some c /\
              cfiFromPage (Some z) (process items empty) = Cfi c.
Proof.
  intros items i it z HF Hi Hp Hfirst.
  destruct (process_locations_fold items empty HF) as (cs & Hl & Hm).
  pose proof (process_items_fold items empty) as Hpages.
  cbn [empty pages locations app] in Hl, Hpages.
  assert (Hc : nth_error (map cfi items) i = Some (cfi it))
    by (now apply map_nth_error).
  rewrite <- Hm in Hc.
  destruct (nth_error cs i) as [c|] eqn:Ec;
    [|rewrite nth_error_map, Ec in Hc; discriminate].
  rewrite nth_error_map, Ec in Hc. cbn in Hc. injection Hc as Hc.
  exists c. split; [now symmetry|].
  unfold cfiFromPage, process. cbn [pages locations].
  rewrite Hpages, Hl.
  rewrite (indexOf_first (map page items) i 0 z).
  - cbn [Nat.add]. now rewrite Ec.
  - rewrite <- Hp. now apply map_nth_error.
  - intros k Hk E. rewrite nth_error_map in E.
    destruct (nth_error items k) as [it'|] eqn:Ek; [|discriminate].
    cbn in E. injection E as E. exact (Hfirst k it' Hk Ek E).
Qed.

Lemma cfiFromPage_after_process_witness :
  exists c,
    cfi (mkItem (Some "epubcfi(/6/4!/4/2)") "b.xhtml#epubcfi(/6/4!/4/2)"
           (Some 6%Z)) = Some c /\
    cfiFromPage (Some 6%Z) (process sample_pages empty) = Cfi c.
Proof.
  apply (cfiFromPage_after_process sample_pages 1
           (mkItem (Some "epubcfi(/6/4!/4/2)") "b.xhtml#epubcfi(/6/4!/4/2)"
              (Some 6%Z)) 6%Z).
  - repeat constructor; eexists; (split; [reflexivity|discriminate]).
  - reflexivity.
  - reflexivity.
  - intros k it' Hk Hn. destruct k as [|k]; [|lia].
    cbn in Hn. injection Hn as <-. discriminate.
Defined.

(** X21: [percentageFromPage] gives a value between 0 and 1, as its
    documentation says, for every page between the first and the last one of
    a page list with a positive number of pages. *)
Theorem percentageFromPage_range :
  forall (pl : PageList) (f t : Z) (pg : Q),
    firstPage pl = Some f ->
    totalPages pl = Some t ->
    (0 < t)%Z ->
    inject_Z f <= pg -> pg <= inject_Z f + inject_Z t ->
    exists p, percentageFromPage pg pl = Some p /\ 0 <= p /\ p <= 1.
Proof.
  intros pl f t pg Hf Ht Hpos Hlo Hhi.
  unfold percentageFromPage. rewrite Hf, Ht.
  destruct (Z.eqb_spec t 0) as [E|_]; [lia|].
  eexists. split; [reflexivity|].
  set (y := (pg - inject_Z f) / inject_Z t * 1000).
  assert (HT0 : 0 < inject_Z t)
    by (change 0 with (inject_Z 0); rewrite <- Zlt_Qlt; lia).
  assert (Hy : y * inject_Z t == 1000 * (pg - inject_Z f)).
  { unfold y. field. intros H0. rewrite H0 in HT0.
    exact (Qlt_irrefl 0 HT0). }
  assert (Hy0 : 0 <= y) by nra.
  assert (Hy1 : y <= 1000) by nra.
  assert (Hk0 : (0 <= Math_round y)%Z).
  { unfold Math_round. change 0%Z with (Qfloor 0).
    apply Qfloor_resp_le. lra. }
  assert (Hk1 : (Math_round y <= 1000)%Z).
  { unfold Math_round. change 1000%Z with (Qfloor (1000 + (1 # 2))).
    apply Qfloor_resp_le. lra. }
  rewrite Zle_Qle in Hk0, Hk1.
  change (inject_Z 0) with 0 in Hk0. change (inject_Z 1000) with 1000 in Hk1.
  split.
  - apply Qle_shift_div_l; [reflexivity|lra].
  - apply Qle_shift_div_r; [reflexivity|lra].
Qed.

Lemma percentageFromPage_range_witness :
  exists p,
    percentageFromPage 6 (process sample_pages empty) = Some p /\
    0 <= p /\ p <= 1.
Proof.
  apply (percentageFromPage_range (process sample_pages empty) 5 4 6).
  - reflexivity.
  - reflexivity.
  - lia.
  - discriminate.
  - discriminate.
Defined.

End PageListFacts.

(** ** trim is idempotent *)

Lemma fold_remove_NoDup :
  forall L ws,
    NoDup (map vid ws) ->
    NoDup (map vid (fold_left (fun acc v => Views.remove (vid v) acc) L ws)).
Proof.
  intros L ws H. rewrite fold_remove_filter by exact H.
  now apply NoDup_vid_filter.
Qed.

(** X22: [trim] is idempotent: on a window with a displayed view, a second
    [trim] right after the first erases nothing and scrolls nothing; the
    manager is exactly as the first [trim] left it. *)
Theorem trim_idempotent :
  forall m : Manager,
    NoDup (map vid (views m)) ->
    existsb (fun v => displayed v) (views m) = true ->
    trim (trim m) = trim m.
Proof.
  intros m Hnd Hex.
  destruct (window_split (views m) Hex)
    as (A & M & e & B & Hws & HA & HB & He & Hd).
  pose proof (trim_views_split m A M e B Hws Hnd HA HB He Hd) as Hv.
  assert (Hnd' : NoDup (map vid (views (trim m)))).
  { rewrite (trim_loops_split m A M e B Hws Hnd HA HB He Hd).
    rewrite !fold_erase_views. now apply fold_remove_NoDup, fold_remove_NoDup. }
  rewrite (trim_loops_split (trim m) (keep_last A) M e (keep_first B) Hv Hnd'
             (Forall_keep_last A HA) (Forall_keep_first B HB) He Hd).
  pose proof (keep_last_length View A) as HlA.
  pose proof (keep_first_length View B) as HlB.
  replace (List.length (keep_last A) - 1)%nat with 0%nat by lia.
  replace (List.length (keep_first B) - 1)%nat with 0%nat by lia.
  reflexivity.
Qed.

Lemma trim_idempotent_witness :
  trim (trim long_window) = trim long_window.
Proof.
  apply (trim_idempotent long_window); [|reflexivity].
  cbn. repeat constructor; cbn; intuition discriminate.
Defined.
